(** * BLAKE2s compression function, AltiVec implementation

    A shallow embedding of [blake2s-altivec.c] and the proofs that relate it
    to the scalar description of the BLAKE2s compression function.

    A vector register is modelled as its sixteen bytes, element 0 first.  The
    target is big-endian: the 32-bit element [i] of a register occupies bytes
    [4i .. 4i+3], most significant byte first.  Bytes and words are integers
    of [Z]; the wrap-around of 32-bit arithmetic is written out. *)

From Stdlib Require Import ZArith List Lia Bool Permutation.
Import ListNotations.
Local Open Scope Z_scope.

(** ** Bytes, words and registers *)

Definition is_u8 (b : Z) : Prop := 0 <= b < 256.
Definition is_u32 (w : Z) : Prop := 0 <= w < 2 ^ 32.

(** [typedef vector unsigned int vu32; typedef vector unsigned char vu8;]
    Both are views of the same 128-bit register. *)
Definition vreg : Type := list Z.
Definition vu32 : Type := vreg.
Definition vu8 : Type := vreg.

(** The register is well formed when it holds sixteen bytes. *)
Definition wf_vreg (v : vreg) : Prop := length v = 16%nat /\ Forall is_u8 v.

(** Big-endian composition of a 32-bit element from its four bytes. *)
Definition be32 (b0 b1 b2 b3 : Z) : Z :=
  b0 * 2 ^ 24 + b1 * 2 ^ 16 + b2 * 2 ^ 8 + b3.

(** The four bytes of a 32-bit element, most significant first. *)
Definition u32_bytes (w : Z) : list Z :=
  [(w / 2 ^ 24) mod 256; (w / 2 ^ 16) mod 256; (w / 2 ^ 8) mod 256; w mod 256].

(** The [unsigned int] view of a byte sequence. *)
Fixpoint words_of (v : list Z) : list Z :=
  match v with
  | b0 :: b1 :: b2 :: b3 :: r => be32 b0 b1 b2 b3 :: words_of r
  | _ => []
  end.

(** The byte image of an array of [unsigned int]. *)
Definition bytes_of (ws : list Z) : list Z := flat_map u32_bytes ws.

Fixpoint zip_with {A B C : Type} (g : A -> B -> C) (l1 : list A) (l2 : list B)
  : list C :=
  match l1, l2 with
  | x :: l1', y :: l2' => g x y :: zip_with g l1' l2'
  | _, _ => []
  end.

(** A [vu32] initializer [{w0, w1, w2, w3}]. *)
Definition mk_vu32 (w0 w1 w2 w3 : Z) : vu32 := bytes_of [w0; w1; w2; w3].

(** ** 32-bit arithmetic *)

Definition add32 (x y : Z) : Z := (x + y) mod 2 ^ 32.

(** Rotate left, the operation of the [vrlw] instruction. *)
Definition rotl32 (x n : Z) : Z :=
  Z.lor (Z.shiftl x n) (Z.shiftr x (32 - n)) mod 2 ^ 32.

(** ** AltiVec operations *)

(** [vec_ld(off, p)]: the sixteen bytes at [p + off]; [mem] is the byte image
    of the object [p] points to and [off] is a multiple of 16. *)
Definition vec_ld (off : Z) (mem : list Z) : vreg :=
  firstn 16 (skipn (Z.to_nat off) mem).

(** [vec_st(v, off, p)]: overwrite the sixteen bytes at [p + off]. *)
Definition vec_st (v : vreg) (off : Z) (mem : list Z) : list Z :=
  firstn (Z.to_nat off) mem ++ v ++ skipn (Z.to_nat off + 16) mem.

(** [vec_perm(v, w, p)]: pick bytes by index in [p] from [concat(v, w)]; only
    the low five bits of an index are used. *)
Definition vec_perm (v w : vreg) (p : vu8) : vreg :=
  map (fun i => nth (Z.to_nat (i mod 32)) (v ++ w) 0) p.

(** [vec_sld(x, y, z)]: shift [concat(x, y)] left by [z] bytes. *)
Definition vec_sld (x y : vreg) (z : Z) : vreg :=
  firstn 16 (skipn (Z.to_nat z) (x ++ y)).

(** The logical operations act on all 128 bits, whatever the element type. *)
Definition vec_and (x y : vreg) : vreg := zip_with Z.land x y.
Definition vec_or (x y : vreg) : vreg := zip_with Z.lor x y.
Definition vec_xor (x y : vreg) : vreg := zip_with Z.lxor x y.

(** [vec_sel(x, y, z)]: for each bit, if the bit in [z] is set pick [y],
    else [x]. *)
Definition vec_sel (x y z : vreg) : vreg :=
  zip_with (fun xy m => Z.lor (Z.ldiff (fst xy) m) (Z.land (snd xy) m))
           (combine x y) z.

(** Element-wise operation on the [unsigned int] view. *)
Definition lanes2 (g : Z -> Z -> Z) (x y : vu32) : vu32 :=
  bytes_of (zip_with g (words_of x) (words_of y)).

(** [x + y] on [vu32]: modular addition in each element. *)
Definition vec_add (x y : vu32) : vu32 := lanes2 add32 x y.

(** [vec_rl(v, l)]: rotate each element of [v] left by the low five bits of
    the matching element of [l]. *)
Definition vec_rl (v l : vu32) : vu32 :=
  lanes2 (fun x n => rotl32 x (n mod 32)) v l.

(** [vec_mergeh(x, y)]: pick x0 y0 x1 y1; [vec_mergel(x, y)]: x2 y2 x3 y3. *)
Definition vec_mergeh (x y : vu32) : vu32 :=
  firstn 4 x ++ firstn 4 y ++ firstn 4 (skipn 4 x) ++ firstn 4 (skipn 4 y).
Definition vec_mergel (x y : vu32) : vu32 :=
  firstn 4 (skipn 8 x) ++ firstn 4 (skipn 8 y) ++
  firstn 4 (skipn 12 x) ++ firstn 4 (skipn 12 y).

(** ** Constants of the source file *)

Definition vr1 : vu32 := mk_vu32 16 16 16 16.
Definition vr2 : vu32 := mk_vu32 20 20 20 20.
Definition vr3 : vu32 := mk_vu32 24 24 24 24.
Definition vr4 : vu32 := mk_vu32 25 25 25 25.

Definition blake2s_vsigma : list vu8 :=
  [ [  0;  1;  2;  3;  4;  5;  6;  7;  8;  9; 10; 11; 12; 13; 14; 15 ];
    [ 14; 10;  4;  8;  9; 15; 13;  6;  1; 12;  0;  2; 11;  7;  5;  3 ];
    [ 11;  8; 12;  0;  5;  2; 15; 13; 10; 14;  3;  6;  7;  1;  9;  4 ];
    [  7;  9;  3;  1; 13; 12; 11; 14;  2;  6;  5; 10;  4;  0; 15;  8 ];
    [  9;  0;  5;  7;  2;  4; 10; 15; 14;  1; 11; 12;  6;  8;  3; 13 ];
    [  2; 12;  6; 10;  0; 11;  8;  3;  4; 13;  7;  5; 15; 14;  1;  9 ];
    [ 12;  5;  1; 15; 14; 13;  4; 10;  0;  7;  6;  3;  9;  2;  8; 11 ];
    [ 13; 11;  7; 14; 12;  1;  3;  9;  5;  0; 15;  4;  8;  6;  2; 10 ];
    [  6; 15; 14;  9; 11;  3;  0;  8; 12;  2; 13;  7;  1;  4; 10;  5 ];
    [ 10;  2;  8;  4;  7;  6;  1;  5; 15; 11;  9; 14;  3; 12; 13;  0 ] ].

Definition blake2s_viv : list vu32 :=
  [ mk_vu32 0x6a09e667 0xbb67ae85 0x3c6ef372 0xa54ff53a;
    mk_vu32 0x510e527f 0x9b05688c 0x1f83d9ab 0x5be0cd19 ].

Definition mask_1 : vu32 := mk_vu32 0xff000000 0xff000000 0xff000000 0xff000000.
Definition mask_2 : vu32 := mk_vu32 0x00ff0000 0x00ff0000 0x00ff0000 0x00ff0000.
Definition mask_3 : vu32 := mk_vu32 0x0000ff00 0x0000ff00 0x0000ff00 0x0000ff00.
Definition mask_4 : vu32 := mk_vu32 0x000000ff 0x000000ff 0x000000ff 0x000000ff.

(** ** [blake2s_10rounds] *)

(** Byte accesses [*((u8 * )p + i)] to a buffer. *)
Definition load_u8 (buf : list Z) (i : nat) : Z := nth i buf 0.
Definition store_u8 (buf : list Z) (i : nat) (x : Z) : list Z :=
  firstn i buf ++ x :: skipn (S i) buf.

(** One iteration of the byte-slicing loop. *)
Definition byteslice_step (msg : list Z) (msl : list Z) (i : nat) : list Z :=
  let msl := store_u8 msl i (load_u8 msg (i * 4 + 3)) in
  let msl := store_u8 msl (i + 16) (load_u8 msg (i * 4 + 2)) in
  let msl := store_u8 msl (i + 32) (load_u8 msg (i * 4 + 1)) in
  store_u8 msl (i + 48) (load_u8 msg (i * 4 + 0)).

(** [for (unsigned i = 0; i < 16; i++) ...] over the scratch buffer [msl].
    The buffer is not initialized in the source; the loop writes each of its
    64 bytes, so the bytes it starts with (zeros here) do not show. *)
Definition byteslice (msg : list Z) : list Z :=
  fold_left (byteslice_step msg) (seq 0 16) (repeat 0 64).

(** [mv[0..3]]: the four loads of the sliced buffer. *)
Definition load_mv (msg : list Z) : list vu32 :=
  let msl := byteslice msg in
  [vec_ld 0 msl; vec_ld 16 msl; vec_ld 32 msl; vec_ld 48 msl].

(** [#define ror(l,v) vec_rl(v, l)] *)
Definition ror (l v : vu32) : vu32 := vec_rl v l.

Definition vstate : Type := (vu32 * vu32 * vu32 * vu32)%type.

(** [#define BLAKE2S_VG(M,N,a,b,c,d)] *)
Definition BLAKE2S_VG (M N : vu32) (s : vstate) : vstate :=
  let '(a, b, c, d) := s in
  let a := vec_add a (vec_add b M) in
  let d := ror vr1 (vec_xor d a) in
  let c := vec_add c d in
  let b := ror vr2 (vec_xor b c) in
  let a := vec_add a (vec_add b N) in
  let d := ror vr3 (vec_xor d a) in
  let c := vec_add c d in
  let b := ror vr4 (vec_xor b c) in
  (a, b, c, d).

(** [#define SELW(x,y,z,w)] *)
Definition SELW (x y z w : vu32) : vu32 :=
  vec_or (vec_sel (vec_and x mask_1) y mask_2)
         (vec_sel (vec_and z mask_3) w mask_4).

(** The head of [FULLROUND(r)]: apply the round permutation sigma(r) to the
    four byte vectors. *)
Definition permute_slices (r : nat) (mv : list vu32) : vstate :=
  let perm := nth r blake2s_vsigma [] in
  let m1 := vec_perm (nth 0 mv []) (nth 0 mv []) perm in
  let perm := vec_sld perm perm 15 in
  let m2 := vec_perm (nth 1 mv []) (nth 1 mv []) perm in
  let perm := vec_sld perm perm 15 in
  let m3 := vec_perm (nth 2 mv []) (nth 2 mv []) perm in
  let perm := vec_sld perm perm 15 in
  let m4 := vec_perm (nth 3 mv []) (nth 3 mv []) perm in
  (m1, m2, m3, m4).

(** Next in [FULLROUND(r)]: assemble words 0-15 of the message and pair
    them up for the two applications of G. *)
Definition assemble_words (ms : vstate) : vstate :=
  let '(m1, m2, m3, m4) := ms in
  let ra := SELW m1 m2 m3 m4 in
  let rc := SELW m4 m1 m2 m3 in
  let rc := vec_sld rc rc 1 in
  let rb := SELW m3 m4 m1 m2 in
  let rb := vec_sld rb rb 2 in
  let rd := SELW m2 m3 m4 m1 in
  let rd := vec_sld rd rd 3 in
  let m1 := vec_mergeh ra rb in
  let m3 := vec_mergel ra rb in
  let m2 := vec_mergeh rc rd in
  let m4 := vec_mergel rc rd in
  (m1, m2, m3, m4).

(** The message words [m1 .. m4] of round [r]. *)
Definition message_schedule (r : nat) (mv : list vu32) : vstate :=
  assemble_words (permute_slices r mv).

(** The rest of [FULLROUND(r)]: G on columns, rotate, G on diagonals,
    rotate back. *)
Definition mix_round (ms : vstate) (s : vstate) : vstate :=
  let '(m1, m2, m3, m4) := ms in
  let '(va, vb, vc, vd) := BLAKE2S_VG m1 m2 s in
  let vb := vec_sld vb vb 4 in
  let vc := vec_sld vc vc 8 in
  let vd := vec_sld vd vd 12 in
  let '(va, vb, vc, vd) := BLAKE2S_VG m3 m4 (va, vb, vc, vd) in
  let vb := vec_sld vb vb 12 in
  let vc := vec_sld vc vc 8 in
  let vd := vec_sld vd vd 4 in
  (va, vb, vc, vd).

(** [#define FULLROUND(r)] *)
Definition FULLROUND (r : nat) (mv : list vu32) (s : vstate) : vstate :=
  mix_round (message_schedule r mv) s.

(** The ten rounds, as the source unrolls them: the working state before the
    final fold. *)
Definition blake2s_rounds (s : vstate) (msg : list Z) : vstate :=
  let mv := load_mv msg in
  let s := FULLROUND 0 mv s in
  let s := FULLROUND 1 mv s in
  let s := FULLROUND 2 mv s in
  let s := FULLROUND 3 mv s in
  let s := FULLROUND 4 mv s in
  let s := FULLROUND 5 mv s in
  let s := FULLROUND 6 mv s in
  let s := FULLROUND 7 mv s in
  let s := FULLROUND 8 mv s in
  let s := FULLROUND 9 mv s in
  s.

(** [blake2s_10rounds(va, vb, vc, vd, vva, vvb, msg)]; the two results are
    the values stored through [vva] and [vvb]. *)
Definition blake2s_10rounds (va vb vc vd : vu32) (msg : list Z) : vu32 * vu32 :=
  let '(va, vb, vc, vd) := blake2s_rounds (va, vb, vc, vd) msg in
  let va := vec_xor va vc in
  let vb := vec_xor vb vd in
  (va, vb).

(** ** [blake2s_compress] *)

(** Modelled from the spec: [struct blake2s_ctx] is declared in [blake2s.h],
    which is not among the sources.  The context holds the chaining value
    [H] (8 words), the counter [t] (2 words) and the flags [f] (2 words); the
    source reads [t[0], t[1], f[0], f[1]] with one load at [&ctx->t[0]], so
    [f] follows [t] in memory. *)
Record blake2s_ctx : Type := mk_ctx {
  ctx_H : list Z;
  ctx_t : list Z;
  ctx_f : list Z
}.

Definition wf_ctx (ctx : blake2s_ctx) : Prop :=
  (length (ctx_H ctx) = 8%nat /\ Forall is_u32 (ctx_H ctx)) /\
  (length (ctx_t ctx) = 2%nat /\ Forall is_u32 (ctx_t ctx)) /\
  (length (ctx_f ctx) = 2%nat /\ Forall is_u32 (ctx_f ctx)).

Definition wf_block (m : list Z) : Prop :=
  length m = 64%nat /\ Forall is_u8 m.

(** The loads at the head of [blake2s_compress]: the initial working state. *)
Definition blake2s_load (ctx : blake2s_ctx) : vstate :=
  let va := vec_ld 0 (bytes_of (ctx_H ctx)) in
  let vb := vec_ld 16 (bytes_of (ctx_H ctx)) in
  let vpr := vec_ld 0 (bytes_of (ctx_t ctx ++ ctx_f ctx)) in
  let vc := nth 0 blake2s_viv [] in
  let vd := vec_xor (nth 1 blake2s_viv []) vpr in
  (va, vb, vc, vd).

Definition blake2s_compress (ctx : blake2s_ctx) (m : list Z) : blake2s_ctx :=
  let H0 := vec_ld 0 (bytes_of (ctx_H ctx)) in
  let H1 := vec_ld 16 (bytes_of (ctx_H ctx)) in
  let '(va, vb, vc, vd) := blake2s_load ctx in
  let '(va, vb) := blake2s_10rounds va vb vc vd m in
  let H0 := vec_xor H0 va in
  let H1 := vec_xor H1 vb in
  let Hmem := vec_st H0 0 (bytes_of (ctx_H ctx)) in
  let Hmem := vec_st H1 16 Hmem in
  {| ctx_H := words_of Hmem; ctx_t := ctx_t ctx; ctx_f := ctx_f ctx |}.

(** ** [blake2s_compress] on memory

    The same function with the addresses it is called on, to state what the
    loads and stores need of the layout of the context and what the stores
    leave alone.  [lvx] and [stvx], the instructions behind [vec_ld] and
    [vec_st], ignore the low four bits of the address. *)

Module Mem.

(** Memory: the byte at each address. *)
Definition mem : Type := Z -> Z.

(** The [n] bytes at address [a]. *)
Definition read (mu : mem) (a : Z) (n : nat) : list Z :=
  map (fun j => mu (a + Z.of_nat j)) (seq 0 n).

(** Memory after the bytes [bs] are written at address [a]. *)
Definition write (mu : mem) (a : Z) (bs : list Z) : mem :=
  fun x =>
    if (a <=? x) && (x <? a + Z.of_nat (length bs))
    then nth (Z.to_nat (x - a)) bs 0
    else mu x.

(** The effective address of a vector load or store: pointer plus offset,
    rounded down to a multiple of 16. *)
Definition ea (off p : Z) : Z := (p + off) - (p + off) mod 16.

(** [vec_ld(off, p)] and [vec_st(v, off, p)]. *)
Definition vec_ld (off p : Z) (mu : mem) : vreg := read mu (ea off p) 16.
Definition vec_st (v : vreg) (off p : Z) (mu : mem) : mem :=
  write mu (ea off p) v.

(** [blake2s_compress(ctx, m)]: [pH] is the address [ctx->H], [pt] the
    address [&ctx->t[0]] and [pm] the pointer [m].  The bytes of the block
    are read one by one ([*((u8 * )msg + i*4 + 3)] and so on) into the
    aligned local buffer [msl] of [blake2s_10rounds]. *)
Definition blake2s_compress (pH pt pm : Z) (mu : mem) : mem :=
  let H0 := vec_ld 0 pH mu in
  let va := H0 in
  let H1 := vec_ld 16 pH mu in
  let vb := H1 in
  let vpr := vec_ld 0 pt mu in
  let vc := nth 0 blake2s_viv [] in
  let vd := vec_xor (nth 1 blake2s_viv []) vpr in
  let '(va, vb) := blake2s_10rounds va vb vc vd (read mu pm 64) in
  let H0 := vec_xor H0 va in
  let H1 := vec_xor H1 vb in
  let mu := vec_st H0 0 pH mu in
  vec_st H1 16 pH mu.

(** The memory holds the chaining value at [pH], the counter at [pt], the
    flags at [pf] and the block at [pm]. *)
Definition holds (mu : mem) (pH pt pf pm : Z)
  (ctx : blake2s_ctx) (m : list Z) : Prop :=
  read mu pH 32 = bytes_of (ctx_H ctx) /\
  read mu pt 8 = bytes_of (ctx_t ctx) /\
  read mu pf 8 = bytes_of (ctx_f ctx) /\
  read mu pm 64 = m.

(** A memory that holds the bytes [img] from address 0 on, zero elsewhere. *)
Definition of_image (img : list Z) : mem :=
  fun x => if x <? 0 then 0 else nth (Z.to_nat x) img 0.

End Mem.

(** * Scalar reference

    The compression function as the specification words it: a working state
    of sixteen words, the mixing function G on single words, a loop over the
    four columns and the four diagonals, ten rounds, and the final fold. *)

Module Ref.

(** The initialization vector. *)
Definition IV : list Z :=
  [0x6A09E667; 0xBB67AE85; 0x3C6EF372; 0xA54FF53A;
   0x510E527F; 0x9B05688C; 0x1F83D9AB; 0x5BE0CD19].

(** The message schedule of RFC 7693, section 2.7. *)
Definition SIGMA : list (list nat) :=
  [ [0; 1; 2; 3; 4; 5; 6; 7; 8; 9; 10; 11; 12; 13; 14; 15];
    [14; 10; 4; 8; 9; 15; 13; 6; 1; 12; 0; 2; 11; 7; 5; 3];
    [11; 8; 12; 0; 5; 2; 15; 13; 10; 14; 3; 6; 7; 1; 9; 4];
    [7; 9; 3; 1; 13; 12; 11; 14; 2; 6; 5; 10; 4; 0; 15; 8];
    [9; 0; 5; 7; 2; 4; 10; 15; 14; 1; 11; 12; 6; 8; 3; 13];
    [2; 12; 6; 10; 0; 11; 8; 3; 4; 13; 7; 5; 15; 14; 1; 9];
    [12; 5; 1; 15; 14; 13; 4; 10; 0; 7; 6; 3; 9; 2; 8; 11];
    [13; 11; 7; 14; 12; 1; 3; 9; 5; 0; 15; 4; 8; 6; 2; 10];
    [6; 15; 14; 9; 11; 3; 0; 8; 12; 2; 13; 7; 1; 4; 10; 5];
    [10; 2; 8; 4; 7; 6; 1; 5; 15; 11; 9; 14; 3; 12; 13; 0] ]%nat.

(** Right rotation of a 32-bit word, as RFC 7693 section 2.3 defines it:
    [(x >> n) ^ (x << (w - n)) mod 2^w]. *)
Definition rotr32 (x n : Z) : Z :=
  Z.lxor (Z.shiftr x n) (Z.shiftl x (32 - n)) mod 2 ^ 32.

Definition quad : Type := (Z * Z * Z * Z)%type.
Definition qa (q : quad) : Z := fst (fst (fst q)).
Definition qb (q : quad) : Z := snd (fst (fst q)).
Definition qc (q : quad) : Z := snd (fst q).
Definition qd (q : quad) : Z := snd q.

(** The mixing function G of section 4.3. *)
Definition G (a b c d M N : Z) : quad :=
  let a := (a + b + M) mod 2 ^ 32 in
  let d := rotr32 (Z.lxor d a) 16 in
  let c := (c + d) mod 2 ^ 32 in
  let b := rotr32 (Z.lxor b c) 12 in
  let a := (a + b + N) mod 2 ^ 32 in
  let d := rotr32 (Z.lxor d a) 8 in
  let c := (c + d) mod 2 ^ 32 in
  let b := rotr32 (Z.lxor b c) 7 in
  (a, b, c, d).

(** Word [i] of the block: the little-endian value of bytes [4i .. 4i+3]. *)
Definition le32 (b0 b1 b2 b3 : Z) : Z :=
  b0 + 2 ^ 8 * b1 + 2 ^ 16 * b2 + 2 ^ 24 * b3.

Definition msg_word (block : list Z) (i : nat) : Z :=
  le32 (nth (4 * i) block 0) (nth (4 * i + 1) block 0)
       (nth (4 * i + 2) block 0) (nth (4 * i + 3) block 0).

Definition msg_words (block : list Z) : list Z :=
  map (msg_word block) (seq 0 16).

(** Assignment [v[i] = x]. *)
Definition upd (v : list Z) (i : nat) (x : Z) : list Z :=
  firstn i v ++ x :: skipn (S i) v.

(** G applied in place to the words [ia, ib, ic, id] of the working state. *)
Definition mix (v : list Z) (ia ib ic id : nat) (M N : Z) : list Z :=
  let g := G (nth ia v 0) (nth ib v 0) (nth ic v 0) (nth id v 0) M N in
  upd (upd (upd (upd v ia (qa g)) ib (qb g)) ic (qc g)) id (qd g).

(** One round: the four columns, then the four diagonals obtained by rotating
    columns 1, 2, 3 of the 4x4 state by 1, 2, 3 positions. *)
Definition round (m : list Z) (s : list nat) (v : list Z) : list Z :=
  let v := fold_left (fun v k =>
             mix v k (4 + k) (8 + k) (12 + k)
                 (nth (nth (2 * k) s 0%nat) m 0)
                 (nth (nth (2 * k + 1) s 0%nat) m 0))
           (seq 0 4) v in
  fold_left (fun v k =>
    mix v k (4 + (k + 1) mod 4) (8 + (k + 2) mod 4) (12 + (k + 3) mod 4)
        (nth (nth (8 + 2 * k) s 0%nat) m 0)
        (nth (nth (9 + 2 * k) s 0%nat) m 0))
    (seq 0 4) v.

(** The state loader of section 4.1. *)
Definition init (H t f : list Z) : list Z :=
  H ++ firstn 4 IV ++ zip_with Z.lxor (skipn 4 IV) (t ++ f).

(** Ten rounds in sequence. *)
Definition rounds (m : list Z) (v : list Z) : list Z :=
  fold_left (fun v r => round m (nth r SIGMA []) v) (seq 0 10) v.

(** The finalizer of section 4.4. *)
Definition finalize (H v : list Z) : list Z :=
  map (fun i => Z.lxor (Z.lxor (nth i H 0) (nth i v 0)) (nth (i + 8) v 0))
      (seq 0 8).

Definition compress (H t f block : list Z) : list Z :=
  finalize H (rounds (msg_words block) (init H t f)).

End Ref.

(** The mixing macro on one lane, as the code computes it: left rotations
    by 16, 20, 24, 25 and [a += b + M]. *)
Definition G_code (a b c d M N : Z) : Ref.quad :=
  let a := add32 a (add32 b M) in
  let d := rotl32 (Z.lxor d a) 16 in
  let c := add32 c d in
  let b := rotl32 (Z.lxor b c) 20 in
  let a := add32 a (add32 b N) in
  let d := rotl32 (Z.lxor d a) 24 in
  let c := add32 c d in
  let b := rotl32 (Z.lxor b c) 25 in
  (a, b, c, d).

(** Byte [i] of the result comes from [x], [y], [z], [w] in turn. *)
Definition byte_select (x y z w : vreg) : vreg :=
  map (fun i => nth i (nth (i mod 4) [x; y; z; w] []) 0) (seq 0 16).

(** The four bytes gathered for the message word at position [p] of the
    round's permutation. *)
Definition word_at (ms : vstate) (p : nat) : list Z :=
  let '(m1, m2, m3, m4) := ms in
  [nth p m1 0; nth ((p + 1) mod 16) m2 0;
   nth ((p + 2) mod 16) m3 0; nth ((p + 3) mod 16) m4 0].

(** The sixteen words of the working state held in four registers. *)
Definition state_words (s : vstate) : list Z :=
  let '(a, b, c, d) := s in
  words_of a ++ words_of b ++ words_of c ++ words_of d.

Definition wf_state (s : vstate) : Prop :=
  let '(a, b, c, d) := s in
  wf_vreg a /\ wf_vreg b /\ wf_vreg c /\ wf_vreg d.

(** The table [blake2s_vsigma] read as indices. *)
Definition vsigma (r i : nat) : nat :=
  Z.to_nat (nth i (nth r blake2s_vsigma []) 0).

(** ** The test vector of RFC 7693, appendix B: BLAKE2s-256 of "abc" *)

(** The only block of the message: "abc" padded with zeros. *)
Definition abc_block : list Z := [0x61; 0x62; 0x63] ++ repeat 0 61.

(** The context at the only call of the compression function: [h] is the
    initialization vector with the parameter word [0x01010020] (digest
    length 32, no key, fanout 1, depth 1) xored into [h[0]], the counter is
    3 and the last-block flag is set. *)
Definition abc_ctx : blake2s_ctx :=
  mk_ctx [0x6B08E647; 0xBB67AE85; 0x3C6EF372; 0xA54FF53A;
          0x510E527F; 0x9B05688C; 0x1F83D9AB; 0x5BE0CD19]
         [3; 0] [0xFFFFFFFF; 0].

(** The chaining value the RFC publishes after the call. *)
Definition abc_h : list Z :=
  [0x8C5E8C50; 0xE2147C32; 0xA32BA7E1; 0x2F45EB4E;
   0x208B4537; 0x293AD69E; 0x4C9B994D; 0x82596786].

(** Four memories holding the context and the block of the test vector.
    In the first the context is laid out as the code expects ([H] at 0, [t]
    at 32, [f] at 40) and the block sits at the odd address 49.  In the
    second [f] does not follow [t] ([t] at 32, [f] at 48).  In the third
    [H] is at address 8, in the fourth [t] is at address 40. *)
Definition abc_mem : Mem.mem :=
  Mem.of_image (bytes_of (ctx_H abc_ctx) ++ bytes_of (ctx_t abc_ctx) ++
                bytes_of (ctx_f abc_ctx) ++ [0] ++ abc_block).

Definition abc_mem_gap : Mem.mem :=
  Mem.of_image (bytes_of (ctx_H abc_ctx) ++ bytes_of (ctx_t abc_ctx) ++
                repeat 0 8 ++ bytes_of (ctx_f abc_ctx) ++ repeat 0 8 ++
                abc_block).

Definition abc_mem_H8 : Mem.mem :=
  Mem.of_image (repeat 0 8 ++ bytes_of (ctx_H abc_ctx) ++ repeat 0 8 ++
                bytes_of (ctx_t abc_ctx) ++ bytes_of (ctx_f abc_ctx) ++
                abc_block).

Definition abc_mem_t8 : Mem.mem :=
  Mem.of_image (bytes_of (ctx_H abc_ctx) ++ repeat 0 8 ++
                bytes_of (ctx_t abc_ctx) ++ bytes_of (ctx_f abc_ctx) ++
                repeat 0 8 ++ abc_block).

(** ** Deciding that two lists of numbers are permutations of each other *)

Fixpoint remove_one (x : nat) (l : list nat) : option (list nat) :=
  match l with
  | [] => None
  | y :: l' =>
      if Nat.eqb x y then Some l' else option_map (cons y) (remove_one x l')
  end.

Fixpoint is_perm (l1 l2 : list nat) : bool :=
  match l1 with
  | [] => match l2 with [] => true | _ :: _ => false end
  | x :: l1' =>
      match remove_one x l2 with
      | Some l2' => is_perm l1' l2'
      | None => false
      end
  end.

(** ** Deciding that two lists of integers are equal *)

Fixpoint list_eqb (l1 l2 : list Z) : bool :=
  match l1, l2 with
  | [], [] => true
  | x :: l1', y :: l2' => Z.eqb x y && list_eqb l1' l2'
  | _, _ => false
  end.

(** ** Auxiliary definitions for inverting the rounds *)

(** Half of G: the four steps with the rotations [r1] and [r2].  G is the
    half with rotations 16 and 12 on [M] followed by the half with rotations
    8 and 7 on [N]. *)
Definition G_half (r1 r2 : Z) (q : Ref.quad) (M : Z) : Ref.quad :=
  let '(a, b, c, d) := q in
  let a := (a + b + M) mod 2 ^ 32 in
  let d := Ref.rotr32 (Z.lxor d a) r1 in
  let c := (c + d) mod 2 ^ 32 in
  let b := Ref.rotr32 (Z.lxor b c) r2 in
  (a, b, c, d).

Definition quad_u32 (q : Ref.quad) : Prop :=
  is_u32 (Ref.qa q) /\ is_u32 (Ref.qb q) /\
  is_u32 (Ref.qc q) /\ is_u32 (Ref.qd q).

(** The context of the test vector with the last-block flag clear. *)
Definition abc_ctx_open : blake2s_ctx :=
  mk_ctx (ctx_H abc_ctx) [3; 0] [0; 0].


(** * Bytes and words *)

Lemma is_u8_mod (x : Z) : is_u8 (x mod 256).
Proof. unfold is_u8. apply Z.mod_pos_bound. lia. Qed.

Lemma is_u32_mod (x : Z) : is_u32 (x mod 2 ^ 32).
Proof. unfold is_u32. apply Z.mod_pos_bound. lia. Qed.

Lemma add32_range (x y : Z) : is_u32 (add32 x y).
Proof. apply is_u32_mod. Qed.

Lemma rotl32_range (x n : Z) : is_u32 (rotl32 x n).
Proof. apply is_u32_mod. Qed.

Lemma rotr32_range (x n : Z) : is_u32 (Ref.rotr32 x n).
Proof. apply is_u32_mod. Qed.

(** A 32-bit word has no bit at position 32 or above. *)
Lemma u32_testbit_high (x n : Z) : is_u32 x -> 32 <= n -> Z.testbit x n = false.
Proof.
  intros Hx Hn. rewrite <- (Z.mod_small x (2 ^ 32)) by exact Hx.
  apply Z.mod_pow2_bits_high. lia.
Qed.

Lemma lxor_range (x y : Z) : is_u32 x -> is_u32 y -> is_u32 (Z.lxor x y).
Proof.
  intros Hx Hy.
  assert (E : Z.lxor x y mod 2 ^ 32 = Z.lxor x y).
  { apply Z.bits_inj'. intros n Hn.
    destruct (Z.lt_ge_cases n 32) as [L | L].
    - apply Z.mod_pow2_bits_low. lia.
    - rewrite Z.mod_pow2_bits_high by lia.
      rewrite Z.lxor_spec, !u32_testbit_high by assumption. reflexivity. }
  rewrite <- E. apply is_u32_mod.
Qed.

Lemma be32_range (b0 b1 b2 b3 : Z) :
  is_u8 b0 -> is_u8 b1 -> is_u8 b2 -> is_u8 b3 -> is_u32 (be32 b0 b1 b2 b3).
Proof. unfold is_u8, is_u32, be32. lia. Qed.

Lemma u32_bytes_be32 (b0 b1 b2 b3 : Z) :
  is_u8 b0 -> is_u8 b1 -> is_u8 b2 -> is_u8 b3 ->
  u32_bytes (be32 b0 b1 b2 b3) = [b0; b1; b2; b3].
Proof.
  unfold is_u8, u32_bytes, be32. intros H0 H1 H2 H3.
  repeat f_equal; Z.div_mod_to_equations; lia.
Qed.

Lemma u32_bytes_range (w : Z) : Forall is_u8 (u32_bytes w).
Proof. unfold u32_bytes. repeat constructor; apply is_u8_mod. Qed.

(** The bytes of a word, by shifts and masks. *)
Lemma u32_bytes_bits (w : Z) :
  u32_bytes w =
  [Z.land (Z.shiftr w 24) 255; Z.land (Z.shiftr w 16) 255;
   Z.land (Z.shiftr w 8) 255; Z.land (Z.shiftr w 0) 255].
Proof.
  unfold u32_bytes. change 255 with (Z.ones 8).
  rewrite !Z.land_ones, !Z.shiftr_div_pow2 by lia.
  change (2 ^ 0) with 1. rewrite Z.div_1_r. reflexivity.
Qed.

Lemma land_lxor_distr (a b c : Z) :
  Z.land (Z.lxor a b) c = Z.lxor (Z.land a c) (Z.land b c).
Proof.
  apply Z.bits_inj'. intros n _.
  rewrite Z.lxor_spec, !Z.land_spec, Z.lxor_spec.
  destruct (Z.testbit a n), (Z.testbit b n), (Z.testbit c n); reflexivity.
Qed.

Lemma lxor_inj_l (a x y : Z) : Z.lxor a x = Z.lxor a y -> x = y.
Proof.
  intros E. apply (f_equal (Z.lxor a)) in E.
  rewrite <- !Z.lxor_assoc, Z.lxor_nilpotent, !Z.lxor_0_l in E. exact E.
Qed.

Lemma u32_bytes_lxor (x y : Z) :
  zip_with Z.lxor (u32_bytes x) (u32_bytes y) = u32_bytes (Z.lxor x y).
Proof.
  rewrite !u32_bytes_bits. cbn [zip_with].
  rewrite !Z.shiftr_lxor, !land_lxor_distr. reflexivity.
Qed.

Lemma u8_land_255 (b : Z) : is_u8 b -> Z.land b 255 = b.
Proof.
  intros Hb. change 255 with (Z.ones 8). rewrite Z.land_ones by lia.
  apply Z.mod_small. exact Hb.
Qed.

(** The code rotates left by 32 - n where the algorithm rotates right by n. *)
Lemma rotl32_rotr32 (x n : Z) :
  is_u32 x -> 0 < n < 32 -> rotl32 x (32 - n) = Ref.rotr32 x n.
Proof.
  intros Hx Hn. unfold rotl32, Ref.rotr32.
  replace (32 - (32 - n)) with n by lia.
  rewrite Z.lor_comm. f_equal. symmetry. apply Z.lxor_lor.
  apply Z.bits_inj'. intros k Hk.
  rewrite Z.land_spec, Z.shiftr_spec, Z.shiftl_spec, Z.bits_0 by lia.
  destruct (Z.lt_ge_cases k (32 - n)) as [L | L].
  - rewrite (Z.testbit_neg_r x (k - (32 - n))) by lia. apply andb_false_r.
  - rewrite (u32_testbit_high x (k + n)) by (assumption || lia). reflexivity.
Qed.

Lemma le32_be32 (b0 b1 b2 b3 : Z) : Ref.le32 b0 b1 b2 b3 = be32 b3 b2 b1 b0.
Proof. unfold Ref.le32, be32. ring. Qed.

Lemma rotl32_16 (x : Z) : is_u32 x -> rotl32 x 16 = Ref.rotr32 x 16.
Proof. intros Hx. apply (rotl32_rotr32 x 16 Hx). lia. Qed.

Lemma rotl32_20 (x : Z) : is_u32 x -> rotl32 x 20 = Ref.rotr32 x 12.
Proof. intros Hx. apply (rotl32_rotr32 x 12 Hx). lia. Qed.

Lemma rotl32_24 (x : Z) : is_u32 x -> rotl32 x 24 = Ref.rotr32 x 8.
Proof. intros Hx. apply (rotl32_rotr32 x 8 Hx). lia. Qed.

Lemma rotl32_25 (x : Z) : is_u32 x -> rotl32 x 25 = Ref.rotr32 x 7.
Proof. intros Hx. apply (rotl32_rotr32 x 7 Hx). lia. Qed.

Lemma add32_add3 (a b M : Z) : add32 a (add32 b M) = (a + b + M) mod 2 ^ 32.
Proof.
  unfold add32. rewrite Z.add_mod_idemp_r by lia. f_equal. lia.
Qed.

Create HintDb u32.
#[local] Hint Resolve add32_range rotl32_range rotr32_range lxor_range
  is_u32_mod : u32.
#[local] Hint Extern 1 (is_u32 _) => (unfold is_u32; lia) : u32.

Ltac u32_solve := repeat (apply Forall_cons || apply Forall_nil); auto with u32.

Ltac explode l Hlen :=
  repeat (destruct l as [| ? l];
          [discriminate Hlen | cbn [length] in Hlen; apply Nat.succ_inj in Hlen]);
  destruct l; [clear Hlen | discriminate Hlen].

Ltac split_Forall :=
  repeat match goal with
  | H : Forall _ (_ :: _) |- _ =>
      let H1 := fresh "Hb" in
      pose proof (Forall_inv H) as H1; apply Forall_inv_tail in H
  | H : Forall _ [] |- _ => clear H
  end.

(** ** The mixing function on one lane *)

Lemma G_code_ref (a b c d M N : Z) :
  is_u32 a -> is_u32 b -> is_u32 c -> is_u32 d ->
  G_code a b c d M N = Ref.G a b c d M N.
Proof.
  intros Ha Hb Hc Hd. unfold G_code, Ref.G. cbv zeta.
  rewrite !add32_add3. unfold add32.
  rewrite !rotl32_16, !rotl32_20, !rotl32_24, !rotl32_25 by auto 8 with u32.
  reflexivity.
Qed.

(** ** Registers as four words *)

Lemma words_of_bytes_of (ws : list Z) :
  Forall is_u32 ws -> words_of (bytes_of ws) = ws.
Proof.
  induction 1 as [| w ws Hw _ IH]; [reflexivity |].
  change (bytes_of (w :: ws)) with (u32_bytes w ++ bytes_of ws).
  unfold u32_bytes. cbn [app words_of]. rewrite IH. f_equal.
  unfold is_u32, be32 in *. Z.div_mod_to_equations. lia.
Qed.

Lemma lanes2_bytes_of (g : Z -> Z -> Z) (xs ys : list Z) :
  Forall is_u32 xs -> Forall is_u32 ys ->
  lanes2 g (bytes_of xs) (bytes_of ys) = bytes_of (zip_with g xs ys).
Proof.
  intros Hx Hy. unfold lanes2. rewrite !words_of_bytes_of by assumption.
  reflexivity.
Qed.

Lemma vec_xor_bytes_of (xs ys : list Z) :
  vec_xor (bytes_of xs) (bytes_of ys) = bytes_of (zip_with Z.lxor xs ys).
Proof.
  revert ys. induction xs as [| x xs IH]; intros [| y ys]; [reflexivity .. |].
  change (bytes_of (x :: xs)) with (u32_bytes x ++ bytes_of xs).
  change (bytes_of (y :: ys)) with (u32_bytes y ++ bytes_of ys).
  cbn [zip_with].
  change (bytes_of (Z.lxor x y :: zip_with Z.lxor xs ys))
    with (u32_bytes (Z.lxor x y) ++ bytes_of (zip_with Z.lxor xs ys)).
  rewrite <- IH, <- u32_bytes_lxor. reflexivity.
Qed.

(** A well-formed register is the byte image of its four words. *)
Lemma wf_vreg_words (v : vreg) :
  wf_vreg v ->
  exists w0 w1 w2 w3,
    v = bytes_of [w0; w1; w2; w3] /\ Forall is_u32 [w0; w1; w2; w3].
Proof.
  intros [L Hv]. explode v L. split_Forall.
  match goal with
  | |- exists _ _ _ _,
        [?b0; ?b1; ?b2; ?b3; ?b4; ?b5; ?b6; ?b7;
         ?b8; ?b9; ?b10; ?b11; ?b12; ?b13; ?b14; ?b15] = _ /\ _ =>
      exists (be32 b0 b1 b2 b3), (be32 b4 b5 b6 b7),
             (be32 b8 b9 b10 b11), (be32 b12 b13 b14 b15)
  end.
  split.
  - unfold bytes_of. cbn [flat_map]. rewrite !u32_bytes_be32 by assumption.
    reflexivity.
  - repeat (apply Forall_cons; [apply be32_range; assumption |]).
    apply Forall_nil.
Qed.

Lemma wf_bytes_of (w0 w1 w2 w3 : Z) : wf_vreg (bytes_of [w0; w1; w2; w3]).
Proof.
  split; [reflexivity |]. unfold bytes_of. cbn [flat_map].
  rewrite !Forall_app. repeat split; (apply u32_bytes_range || apply Forall_nil).
Qed.

(** The mixing macro acts on each of the four lanes separately. *)
Lemma BLAKE2S_VG_lanes
  (M0 M1 M2 M3 N0 N1 N2 N3 a0 a1 a2 a3 b0 b1 b2 b3
   c0 c1 c2 c3 d0 d1 d2 d3 : Z) :
  Forall is_u32 [M0; M1; M2; M3] -> Forall is_u32 [N0; N1; N2; N3] ->
  Forall is_u32 [a0; a1; a2; a3] -> Forall is_u32 [b0; b1; b2; b3] ->
  Forall is_u32 [c0; c1; c2; c3] -> Forall is_u32 [d0; d1; d2; d3] ->
  let g0 := G_code a0 b0 c0 d0 M0 N0 in
  let g1 := G_code a1 b1 c1 d1 M1 N1 in
  let g2 := G_code a2 b2 c2 d2 M2 N2 in
  let g3 := G_code a3 b3 c3 d3 M3 N3 in
  BLAKE2S_VG (bytes_of [M0; M1; M2; M3]) (bytes_of [N0; N1; N2; N3])
    (bytes_of [a0; a1; a2; a3], bytes_of [b0; b1; b2; b3],
     bytes_of [c0; c1; c2; c3], bytes_of [d0; d1; d2; d3]) =
  (bytes_of [Ref.qa g0; Ref.qa g1; Ref.qa g2; Ref.qa g3],
   bytes_of [Ref.qb g0; Ref.qb g1; Ref.qb g2; Ref.qb g3],
   bytes_of [Ref.qc g0; Ref.qc g1; Ref.qc g2; Ref.qc g3],
   bytes_of [Ref.qd g0; Ref.qd g1; Ref.qd g2; Ref.qd g3]).
Proof.
  intros HM HN Ha Hb Hc Hd. split_Forall.
  unfold BLAKE2S_VG, ror, vec_add, vec_rl, vr1, vr2, vr3, vr4, mk_vu32.
  cbv zeta.
  repeat (rewrite ?vec_xor_bytes_of;
          rewrite lanes2_bytes_of by u32_solve; cbn [zip_with]).
  cbv beta. change (16 mod 32) with 16. change (20 mod 32) with 20.
  change (24 mod 32) with 24. change (25 mod 32) with 25.
  reflexivity.
Qed.

(** ** The message schedule *)

Lemma SELW_bytes (x y z w : vreg) :
  wf_vreg x -> wf_vreg y -> wf_vreg z -> wf_vreg w ->
  SELW x y z w = byte_select x y z w.
Proof.
  intros [Lx Hx] [Ly Hy] [Lz Hz] [Lw Hw].
  explode x Lx. explode y Ly. explode z Lz. explode w Lw.
  split_Forall.
  unfold SELW, byte_select.
  replace mask_1 with [255; 0; 0; 0; 255; 0; 0; 0; 255; 0; 0; 0; 255; 0; 0; 0]
    by reflexivity.
  replace mask_2 with [0; 255; 0; 0; 0; 255; 0; 0; 0; 255; 0; 0; 0; 255; 0; 0]
    by reflexivity.
  replace mask_3 with [0; 0; 255; 0; 0; 0; 255; 0; 0; 0; 255; 0; 0; 0; 255; 0]
    by reflexivity.
  replace mask_4 with [0; 0; 0; 255; 0; 0; 0; 255; 0; 0; 0; 255; 0; 0; 0; 255]
    by reflexivity.
  cbn [vec_or vec_sel vec_and zip_with combine fst snd].
  rewrite ?Z.land_0_r, ?Z.ldiff_0_r, ?Z.ldiff_0_l, ?Z.lor_0_r, ?Z.lor_0_l.
  rewrite !u8_land_255 by assumption.
  reflexivity.
Qed.

Lemma assemble_words_bytes (m1 m2 m3 m4 : vreg) :
  wf_vreg m1 -> wf_vreg m2 -> wf_vreg m3 -> wf_vreg m4 ->
  let at_ := word_at (m1, m2, m3, m4) in
  assemble_words (m1, m2, m3, m4) =
  (at_ 0%nat ++ at_ 2%nat ++ at_ 4%nat ++ at_ 6%nat,
   at_ 1%nat ++ at_ 3%nat ++ at_ 5%nat ++ at_ 7%nat,
   at_ 8%nat ++ at_ 10%nat ++ at_ 12%nat ++ at_ 14%nat,
   at_ 9%nat ++ at_ 11%nat ++ at_ 13%nat ++ at_ 15%nat).
Proof.
  intros H1 H2 H3 H4 at_. subst at_. unfold assemble_words.
  rewrite !SELW_bytes by assumption.
  reflexivity.
Qed.

Lemma wf_block_nth (msg : list Z) (k : nat) :
  wf_block msg -> is_u8 (nth k msg 0).
Proof.
  intros [_ Hm]. destruct (Nat.lt_ge_cases k (length msg)) as [L | L].
  - rewrite Forall_forall in Hm. apply Hm, nth_In, L.
  - rewrite nth_overflow by exact L. unfold is_u8. lia.
Qed.

Lemma u32_bytes_msg_word (msg : list Z) (i : nat) :
  wf_block msg ->
  u32_bytes (Ref.msg_word msg i) =
  [nth (4 * i + 3) msg 0; nth (4 * i + 2) msg 0;
   nth (4 * i + 1) msg 0; nth (4 * i) msg 0].
Proof.
  intros Hm. unfold Ref.msg_word. rewrite le32_be32.
  apply u32_bytes_be32; apply wf_block_nth, Hm.
Qed.

Lemma msg_word_range (msg : list Z) (i : nat) :
  wf_block msg -> is_u32 (Ref.msg_word msg i).
Proof.
  intros Hm. unfold Ref.msg_word. rewrite le32_be32.
  apply be32_range; apply wf_block_nth, Hm.
Qed.

Lemma nth_msg_words (msg : list Z) (i : nat) :
  wf_block msg -> nth i (Ref.msg_words msg) 0 = Ref.msg_word msg i.
Proof.
  intros [Lm _]. unfold Ref.msg_words.
  destruct (Nat.lt_ge_cases i 16) as [L | L].
  - rewrite (nth_indep _ 0 (Ref.msg_word msg 0%nat))
      by (rewrite length_map, length_seq; exact L).
    rewrite map_nth, seq_nth by exact L. reflexivity.
  - rewrite nth_overflow by (rewrite length_map, length_seq; exact L).
    unfold Ref.msg_word. rewrite !nth_overflow by lia. reflexivity.
Qed.

(** The sliced buffer: slice [k] holds at position [i] the byte [3 - k] of
    message word [i]. *)
Lemma byteslice_bytes (msg : list Z) :
  byteslice msg =
  map (fun j => nth (4 * (j mod 16) + (3 - j / 16)) msg 0) (seq 0 64).
Proof. reflexivity. Qed.

Lemma wf_vec_perm (v : vreg) (p : vu8) :
  wf_vreg v -> length p = 16%nat -> wf_vreg (vec_perm v v p).
Proof.
  intros [Lv Hv] Lp. split.
  - unfold vec_perm. rewrite length_map. exact Lp.
  - unfold vec_perm. apply Forall_map, Forall_forall. intros i _.
    destruct (Nat.lt_ge_cases (Z.to_nat (i mod 32)) (length (v ++ v)))
      as [L | L].
    + assert (Hvv : Forall is_u8 (v ++ v)) by (apply Forall_app; auto).
      rewrite Forall_forall in Hvv. apply Hvv, nth_In, L.
    + rewrite nth_overflow by exact L. unfold is_u8. lia.
Qed.

Lemma wf_load_mv (msg : list Z) (k : nat) :
  wf_block msg -> (k < 4)%nat -> wf_vreg (nth k (load_mv msg) []).
Proof.
  intros Hm Hk. unfold load_mv. rewrite byteslice_bytes.
  do 4 (destruct k as [| k]; [
    split; [reflexivity |];
    cbv [nth vec_ld Z.to_nat Pos.to_nat Pos.iter_op Nat.add skipn firstn
         map seq];
    repeat (apply Forall_cons; [apply wf_block_nth, Hm |]);
    apply Forall_nil |]).
  lia.
Qed.

(** The registers [m1 .. m4] of round [r] hold the message words that the
    schedule of the round selects, in the order the two applications of the
    mixing macro consume them. *)
Lemma message_schedule_words (msg : list Z) (r : nat) :
  wf_block msg -> (r < 10)%nat ->
  let m := Ref.msg_word msg in
  let s := fun i => nth i (nth r Ref.SIGMA []) 0%nat in
  message_schedule r (load_mv msg) =
  (bytes_of [m (s 0%nat); m (s 2%nat); m (s 4%nat); m (s 6%nat)],
   bytes_of [m (s 1%nat); m (s 3%nat); m (s 5%nat); m (s 7%nat)],
   bytes_of [m (s 8%nat); m (s 10%nat); m (s 12%nat); m (s 14%nat)],
   bytes_of [m (s 9%nat); m (s 11%nat); m (s 13%nat); m (s 15%nat)]).
Proof.
  intros Hm Hr m s. subst m s. cbv beta.
  unfold bytes_of. cbn [flat_map].
  rewrite !(u32_bytes_msg_word msg) by exact Hm.
  unfold message_schedule, permute_slices.
  pose proof (wf_load_mv msg 0 Hm ltac:(lia)) as W0.
  pose proof (wf_load_mv msg 1 Hm ltac:(lia)) as W1.
  pose proof (wf_load_mv msg 2 Hm ltac:(lia)) as W2.
  pose proof (wf_load_mv msg 3 Hm ltac:(lia)) as W3.
  do 10 (destruct r as [| r]; [
    rewrite assemble_words_bytes
      by (apply wf_vec_perm; [assumption | reflexivity]);
    vm_compute; reflexivity |]).
  lia.
Qed.

(** ** One round *)

Lemma G_ref_range (a b c d M N : Z) :
  is_u32 (Ref.qa (Ref.G a b c d M N)) /\
  is_u32 (Ref.qb (Ref.G a b c d M N)) /\
  is_u32 (Ref.qc (Ref.G a b c d M N)) /\
  is_u32 (Ref.qd (Ref.G a b c d M N)).
Proof. unfold Ref.G. cbn. auto using is_u32_mod, rotr32_range. Qed.

Lemma G_ref_qa (a b c d M N : Z) : is_u32 (Ref.qa (Ref.G a b c d M N)).
Proof. exact (proj1 (G_ref_range a b c d M N)). Qed.

Lemma G_ref_qb (a b c d M N : Z) : is_u32 (Ref.qb (Ref.G a b c d M N)).
Proof. exact (proj1 (proj2 (G_ref_range a b c d M N))). Qed.

Lemma G_ref_qc (a b c d M N : Z) : is_u32 (Ref.qc (Ref.G a b c d M N)).
Proof. exact (proj1 (proj2 (proj2 (G_ref_range a b c d M N)))). Qed.

Lemma G_ref_qd (a b c d M N : Z) : is_u32 (Ref.qd (Ref.G a b c d M N)).
Proof. exact (proj2 (proj2 (proj2 (G_ref_range a b c d M N)))). Qed.

(** The range of a component of G, chosen by the shape of the goal: no
    unification is attempted across different components. *)
Ltac quad_range :=
  lazymatch goal with
  | |- is_u32 (Ref.qa (Ref.G _ _ _ _ _ _)) => apply G_ref_qa
  | |- is_u32 (Ref.qb (Ref.G _ _ _ _ _ _)) => apply G_ref_qb
  | |- is_u32 (Ref.qc (Ref.G _ _ _ _ _ _)) => apply G_ref_qc
  | |- is_u32 (Ref.qd (Ref.G _ _ _ _ _ _)) => apply G_ref_qd
  end.

Ltac quad_ranges g :=
  let R := fresh "R" in
  pose proof (G_ref_range _ _ _ _ _ _ :
                is_u32 (Ref.qa g) /\ is_u32 (Ref.qb g) /\
                is_u32 (Ref.qc g) /\ is_u32 (Ref.qd g)) as R;
  destruct R as (? & ? & ? & ?).

Lemma vec_sld_words_4 (x0 x1 x2 x3 : Z) :
  vec_sld (bytes_of [x0; x1; x2; x3]) (bytes_of [x0; x1; x2; x3]) 4 =
  bytes_of [x1; x2; x3; x0].
Proof. reflexivity. Qed.

Lemma vec_sld_words_8 (x0 x1 x2 x3 : Z) :
  vec_sld (bytes_of [x0; x1; x2; x3]) (bytes_of [x0; x1; x2; x3]) 8 =
  bytes_of [x2; x3; x0; x1].
Proof. reflexivity. Qed.

Lemma vec_sld_words_12 (x0 x1 x2 x3 : Z) :
  vec_sld (bytes_of [x0; x1; x2; x3]) (bytes_of [x0; x1; x2; x3]) 12 =
  bytes_of [x3; x0; x1; x2].
Proof. reflexivity. Qed.

(** The vector round on registers given by their words: G on the four
    columns, then G on the four diagonals. *)
Lemma mix_round_words
  (M0 M1 M2 M3 M4 M5 M6 M7 M8 M9 M10 M11 M12 M13 M14 M15
   a0 a1 a2 a3 b0 b1 b2 b3 c0 c1 c2 c3 d0 d1 d2 d3 : Z) :
  Forall is_u32 [M0; M1; M2; M3; M4; M5; M6; M7;
                 M8; M9; M10; M11; M12; M13; M14; M15] ->
  Forall is_u32 [a0; a1; a2; a3; b0; b1; b2; b3;
                 c0; c1; c2; c3; d0; d1; d2; d3] ->
  let g0 := Ref.G a0 b0 c0 d0 M0 M1 in
  let g1 := Ref.G a1 b1 c1 d1 M2 M3 in
  let g2 := Ref.G a2 b2 c2 d2 M4 M5 in
  let g3 := Ref.G a3 b3 c3 d3 M6 M7 in
  let h0 := Ref.G (Ref.qa g0) (Ref.qb g1) (Ref.qc g2) (Ref.qd g3) M8 M9 in
  let h1 := Ref.G (Ref.qa g1) (Ref.qb g2) (Ref.qc g3) (Ref.qd g0) M10 M11 in
  let h2 := Ref.G (Ref.qa g2) (Ref.qb g3) (Ref.qc g0) (Ref.qd g1) M12 M13 in
  let h3 := Ref.G (Ref.qa g3) (Ref.qb g0) (Ref.qc g1) (Ref.qd g2) M14 M15 in
  mix_round
    (bytes_of [M0; M2; M4; M6], bytes_of [M1; M3; M5; M7],
     bytes_of [M8; M10; M12; M14], bytes_of [M9; M11; M13; M15])
    (bytes_of [a0; a1; a2; a3], bytes_of [b0; b1; b2; b3],
     bytes_of [c0; c1; c2; c3], bytes_of [d0; d1; d2; d3]) =
  (bytes_of [Ref.qa h0; Ref.qa h1; Ref.qa h2; Ref.qa h3],
   bytes_of [Ref.qb h3; Ref.qb h0; Ref.qb h1; Ref.qb h2],
   bytes_of [Ref.qc h2; Ref.qc h3; Ref.qc h0; Ref.qc h1],
   bytes_of [Ref.qd h1; Ref.qd h2; Ref.qd h3; Ref.qd h0]).
Proof.
  intros HM Hv g0 g1 g2 g3 h0 h1 h2 h3. split_Forall.
  unfold mix_round.
  rewrite BLAKE2S_VG_lanes by u32_solve. cbv zeta.
  rewrite !G_code_ref by assumption.
  fold g0 g1 g2 g3.
  quad_ranges g0. quad_ranges g1. quad_ranges g2. quad_ranges g3.
  rewrite vec_sld_words_4, vec_sld_words_8, vec_sld_words_12.
  rewrite BLAKE2S_VG_lanes by u32_solve. cbv zeta.
  rewrite !G_code_ref by assumption.
  fold h0 h1 h2 h3.
  rewrite vec_sld_words_4, vec_sld_words_8, vec_sld_words_12.
  reflexivity.
Qed.

(** The scalar round on a working state given by its words. *)
Lemma ref_round_words (m : list Z) (s : list nat)
  (a0 a1 a2 a3 b0 b1 b2 b3 c0 c1 c2 c3 d0 d1 d2 d3 : Z) :
  let M := fun k => nth (nth k s 0%nat) m 0 in
  let g0 := Ref.G a0 b0 c0 d0 (M 0%nat) (M 1%nat) in
  let g1 := Ref.G a1 b1 c1 d1 (M 2%nat) (M 3%nat) in
  let g2 := Ref.G a2 b2 c2 d2 (M 4%nat) (M 5%nat) in
  let g3 := Ref.G a3 b3 c3 d3 (M 6%nat) (M 7%nat) in
  let h0 := Ref.G (Ref.qa g0) (Ref.qb g1) (Ref.qc g2) (Ref.qd g3)
                  (M 8%nat) (M 9%nat) in
  let h1 := Ref.G (Ref.qa g1) (Ref.qb g2) (Ref.qc g3) (Ref.qd g0)
                  (M 10%nat) (M 11%nat) in
  let h2 := Ref.G (Ref.qa g2) (Ref.qb g3) (Ref.qc g0) (Ref.qd g1)
                  (M 12%nat) (M 13%nat) in
  let h3 := Ref.G (Ref.qa g3) (Ref.qb g0) (Ref.qc g1) (Ref.qd g2)
                  (M 14%nat) (M 15%nat) in
  Ref.round m s [a0; a1; a2; a3; b0; b1; b2; b3;
                 c0; c1; c2; c3; d0; d1; d2; d3] =
  [Ref.qa h0; Ref.qa h1; Ref.qa h2; Ref.qa h3;
   Ref.qb h3; Ref.qb h0; Ref.qb h1; Ref.qb h2;
   Ref.qc h2; Ref.qc h3; Ref.qc h0; Ref.qc h1;
   Ref.qd h1; Ref.qd h2; Ref.qd h3; Ref.qd h0].
Proof. reflexivity. Qed.

Lemma wf_state_bytes_of (a b c d : list Z) :
  length a = 4%nat -> length b = 4%nat -> length c = 4%nat ->
  length d = 4%nat ->
  wf_state (bytes_of a, bytes_of b, bytes_of c, bytes_of d).
Proof.
  intros La Lb Lc Ld.
  explode a La. explode b Lb. explode c Lc. explode d Ld.
  repeat split; apply wf_bytes_of.
Qed.

(** One [FULLROUND] of the vector code is one round of the reference. *)
Lemma FULLROUND_refines (msg : list Z) (r : nat) (s : vstate) :
  wf_block msg -> (r < 10)%nat -> wf_state s ->
  wf_state (FULLROUND r (load_mv msg) s) /\
  state_words (FULLROUND r (load_mv msg) s) =
  Ref.round (Ref.msg_words msg) (nth r Ref.SIGMA []) (state_words s).
Proof.
  intros Hm Hr Hs. destruct s as [[[va vb] vc] vd].
  destruct Hs as (Wa & Wb & Wc & Wd).
  destruct (wf_vreg_words va Wa) as (a0 & a1 & a2 & a3 & -> & Ha).
  destruct (wf_vreg_words vb Wb) as (b0 & b1 & b2 & b3 & -> & Hb).
  destruct (wf_vreg_words vc Wc) as (c0 & c1 & c2 & c3 & -> & Hc).
  destruct (wf_vreg_words vd Wd) as (d0 & d1 & d2 & d3 & -> & Hd).
  unfold FULLROUND.
  pose proof (message_schedule_words msg r Hm Hr) as E.
  cbv zeta in E. rewrite E. clear E.
  assert (HM : forall i, is_u32 (Ref.msg_word msg i))
    by (intros i; apply msg_word_range, Hm).
  unfold state_words at 2. rewrite !words_of_bytes_of by assumption.
  split_Forall.
  rewrite mix_round_words
    by (repeat (apply Forall_cons; [solve [apply HM | assumption] |]);
        apply Forall_nil).
  cbv zeta. split.
  - apply wf_state_bytes_of; reflexivity.
  - unfold state_words.
    rewrite !words_of_bytes_of
      by (repeat (apply Forall_cons; [quad_range |]); apply Forall_nil).
    cbn [app]. rewrite ref_round_words. cbv zeta.
    rewrite !nth_msg_words by exact Hm. reflexivity.
Qed.

(** ** Ten rounds *)

(** The ten rounds as a fold over the round numbers. *)
Lemma blake2s_rounds_fold (s : vstate) (msg : list Z) :
  blake2s_rounds s msg =
  fold_left (fun s r => FULLROUND r (load_mv msg) s) (seq 0 10) s.
Proof. reflexivity. Qed.

(** Simulation of one fold by another, along an abstraction function. *)
Lemma fold_left_sim {A B : Type} (F : A -> nat -> A) (R : B -> nat -> B)
  (abs : A -> B) (P : A -> Prop) (rs : list nat) :
  (forall r s, In r rs -> P s -> P (F s r) /\ abs (F s r) = R (abs s) r) ->
  forall s, P s ->
  P (fold_left F rs s) /\ abs (fold_left F rs s) = fold_left R rs (abs s).
Proof.
  induction rs as [| r rs IH]; intros Hstep s Hs.
  - split; [exact Hs | reflexivity].
  - cbn [fold_left].
    destruct (Hstep r s (or_introl eq_refl) Hs) as [W E].
    rewrite <- E. apply IH; [| exact W].
    intros r' s' Hr'. apply Hstep. right. exact Hr'.
Qed.

Lemma blake2s_rounds_refines (s : vstate) (msg : list Z) :
  wf_block msg -> wf_state s ->
  wf_state (blake2s_rounds s msg) /\
  state_words (blake2s_rounds s msg) =
  Ref.rounds (Ref.msg_words msg) (state_words s).
Proof.
  intros Hm Hs. rewrite blake2s_rounds_fold.
  apply (fold_left_sim
           (fun s r => FULLROUND r (load_mv msg) s)
           (fun v r => Ref.round (Ref.msg_words msg) (nth r Ref.SIGMA []) v)
           state_words wf_state (seq 0 10)); [| exact Hs].
  intros r s' Hr Hs'. apply FULLROUND_refines; try assumption.
  apply in_seq in Hr. lia.
Qed.

(** ** Loader and finalizer *)

Lemma vec_ld_0_words (w0 w1 w2 w3 : Z) (ws : list Z) :
  vec_ld 0 (bytes_of (w0 :: w1 :: w2 :: w3 :: ws)) = bytes_of [w0; w1; w2; w3].
Proof. reflexivity. Qed.

Lemma vec_ld_16_words (w0 w1 w2 w3 w4 w5 w6 w7 : Z) (ws : list Z) :
  vec_ld 16 (bytes_of (w0 :: w1 :: w2 :: w3 :: w4 :: w5 :: w6 :: w7 :: ws)) =
  bytes_of [w4; w5; w6; w7].
Proof. reflexivity. Qed.

Lemma vec_st_words (x0 x1 x2 x3 y0 y1 y2 y3 h0 h1 h2 h3 h4 h5 h6 h7 : Z) :
  vec_st (bytes_of [y0; y1; y2; y3]) 16
    (vec_st (bytes_of [x0; x1; x2; x3]) 0
       (bytes_of [h0; h1; h2; h3; h4; h5; h6; h7])) =
  bytes_of [x0; x1; x2; x3; y0; y1; y2; y3].
Proof. reflexivity. Qed.

Lemma wf_ctx_inv (ctx : blake2s_ctx) :
  wf_ctx ctx ->
  exists h0 h1 h2 h3 h4 h5 h6 h7 t0 t1 f0 f1,
    ctx = mk_ctx [h0; h1; h2; h3; h4; h5; h6; h7] [t0; t1] [f0; f1] /\
    Forall is_u32 [h0; h1; h2; h3; h4; h5; h6; h7] /\
    Forall is_u32 [t0; t1; f0; f1].
Proof.
  destruct ctx as [H t f]. unfold wf_ctx. cbn [ctx_H ctx_t ctx_f].
  intros ((LH & HH) & (Lt & Ht) & (Lf & Hf)).
  explode H LH. explode t Lt. explode f Lf.
  do 12 eexists. split; [reflexivity |]. split; [exact HH |].
  apply (proj2 (Forall_app is_u32 [_; _] [_; _])). split; assumption.
Qed.

(** The loads at the head of [blake2s_compress] in words. *)
Lemma blake2s_load_words (h0 h1 h2 h3 h4 h5 h6 h7 t0 t1 f0 f1 : Z) :
  blake2s_load (mk_ctx [h0; h1; h2; h3; h4; h5; h6; h7] [t0; t1] [f0; f1]) =
  (bytes_of [h0; h1; h2; h3], bytes_of [h4; h5; h6; h7],
   bytes_of [0x6a09e667; 0xbb67ae85; 0x3c6ef372; 0xa54ff53a],
   bytes_of [Z.lxor 0x510e527f t0; Z.lxor 0x9b05688c t1;
             Z.lxor 0x1f83d9ab f0; Z.lxor 0x5be0cd19 f1]).
Proof.
  unfold blake2s_load. cbn [ctx_H ctx_t ctx_f app].
  rewrite vec_ld_0_words, vec_ld_16_words, vec_ld_0_words.
  cbn [nth blake2s_viv]. unfold mk_vu32.
  rewrite vec_xor_bytes_of. reflexivity.
Qed.

Lemma blake2s_load_init (ctx : blake2s_ctx) :
  wf_ctx ctx ->
  wf_state (blake2s_load ctx) /\
  state_words (blake2s_load ctx) =
  Ref.init (ctx_H ctx) (ctx_t ctx) (ctx_f ctx).
Proof.
  intros Hc.
  destruct (wf_ctx_inv ctx Hc)
    as (h0 & h1 & h2 & h3 & h4 & h5 & h6 & h7 & t0 & t1 & f0 & f1
        & -> & HH & Htf).
  rewrite blake2s_load_words. split.
  - apply wf_state_bytes_of; reflexivity.
  - split_Forall. unfold state_words.
    rewrite !words_of_bytes_of by u32_solve. reflexivity.
Qed.

(** The result of [blake2s_compress] from the working state after the
    rounds. *)
Lemma blake2s_compress_finalize (ctx : blake2s_ctx) (m : list Z) :
  wf_ctx ctx -> wf_block m ->
  blake2s_compress ctx m =
  mk_ctx (Ref.finalize (ctx_H ctx)
            (state_words (blake2s_rounds (blake2s_load ctx) m)))
         (ctx_t ctx) (ctx_f ctx).
Proof.
  intros Hc Hm.
  destruct (blake2s_load_init ctx Hc) as [Ws _].
  destruct (blake2s_rounds_refines (blake2s_load ctx) m Hm Ws) as [W _].
  destruct (wf_ctx_inv ctx Hc)
    as (h0 & h1 & h2 & h3 & h4 & h5 & h6 & h7 & t0 & t1 & f0 & f1
        & -> & HH & Htf).
  unfold blake2s_compress, blake2s_10rounds.
  destruct (blake2s_load _) as [[[va0 vb0] vc0] vd0].
  destruct (blake2s_rounds _ m) as [[[va vb] vc] vd].
  cbn [ctx_H ctx_t ctx_f].
  rewrite vec_ld_0_words, vec_ld_16_words.
  destruct W as (Wa & Wb & Wc & Wd).
  destruct (wf_vreg_words va Wa) as (a0 & a1 & a2 & a3 & -> & Ha).
  destruct (wf_vreg_words vb Wb) as (b0 & b1 & b2 & b3 & -> & Hb).
  destruct (wf_vreg_words vc Wc) as (c0 & c1 & c2 & c3 & -> & Hc').
  destruct (wf_vreg_words vd Wd) as (d0 & d1 & d2 & d3 & -> & Hd).
  rewrite !vec_xor_bytes_of. cbn [zip_with].
  f_equal.
  unfold state_words. rewrite !words_of_bytes_of by assumption.
  rewrite vec_st_words. split_Forall.
  rewrite words_of_bytes_of by u32_solve.
  cbn. rewrite !Z.lxor_assoc. reflexivity.
Qed.

(** The vector code computes the reference compression function. *)
Lemma blake2s_compress_ref (ctx : blake2s_ctx) (m : list Z) :
  wf_ctx ctx -> wf_block m ->
  blake2s_compress ctx m =
  mk_ctx (Ref.compress (ctx_H ctx) (ctx_t ctx) (ctx_f ctx) m)
         (ctx_t ctx) (ctx_f ctx).
Proof.
  intros Hc Hm. rewrite blake2s_compress_finalize by assumption.
  destruct (blake2s_load_init ctx Hc) as [Ws Es].
  destruct (blake2s_rounds_refines (blake2s_load ctx) m Hm Ws) as [_ E].
  rewrite E, Es. reflexivity.
Qed.

(** ** The call on memory *)

Lemma length_zip_with {A B C : Type} (g : A -> B -> C)
  (l1 : list A) (l2 : list B) :
  length (zip_with g l1 l2) = Nat.min (length l1) (length l2).
Proof.
  revert l2. induction l1 as [| x l1 IH]; intros [| y l2]; cbn; auto.
Qed.

Lemma length_bytes_of (ws : list Z) :
  length (bytes_of ws) = (4 * length ws)%nat.
Proof.
  induction ws as [| w ws IH]; [reflexivity |].
  change (bytes_of (w :: ws)) with (u32_bytes w ++ bytes_of ws).
  rewrite length_app, IH. cbn [length u32_bytes]. lia.
Qed.

Lemma mem_length_read (mu : Mem.mem) (a : Z) (n : nat) :
  length (Mem.read mu a n) = n.
Proof. unfold Mem.read. rewrite length_map, length_seq. reflexivity. Qed.

Lemma mem_write_outside (mu : Mem.mem) (a : Z) (bs : list Z) (x : Z) :
  x < a \/ a + Z.of_nat (length bs) <= x -> Mem.write mu a bs x = mu x.
Proof.
  intros Hx. unfold Mem.write.
  destruct (Z.leb_spec a x), (Z.ltb_spec x (a + Z.of_nat (length bs)));
    cbn [andb]; try reflexivity; lia.
Qed.

Lemma mem_write_inside (mu : Mem.mem) (a : Z) (bs : list Z) (j : nat) :
  (j < length bs)%nat -> Mem.write mu a bs (a + Z.of_nat j) = nth j bs 0.
Proof.
  intros Hj. unfold Mem.write.
  destruct (Z.leb_spec a (a + Z.of_nat j)); [| lia].
  destruct (Z.ltb_spec (a + Z.of_nat j) (a + Z.of_nat (length bs))); [| lia].
  cbn [andb]. f_equal. lia.
Qed.

Lemma map_seq_shift {A : Type} (g : nat -> A) (n k : nat) :
  map g (seq n k) = map (fun j => g (n + j)%nat) (seq 0 k).
Proof.
  revert n g. induction k as [| k IH]; intros n g; [reflexivity |].
  cbn [seq map]. rewrite Nat.add_0_r. f_equal.
  rewrite (IH (S n) g), (IH 1%nat (fun j => g (n + j)%nat)).
  apply map_ext. intros j. f_equal. lia.
Qed.

Lemma mem_read_app (mu : Mem.mem) (a : Z) (n k : nat) :
  Mem.read mu a (n + k) = Mem.read mu a n ++ Mem.read mu (a + Z.of_nat n) k.
Proof.
  unfold Mem.read. rewrite seq_app, map_app. f_equal.
  cbn [Nat.add]. rewrite map_seq_shift. apply map_ext.
  intros j. f_equal. lia.
Qed.

Lemma mem_read_ext (mu mu' : Mem.mem) (a : Z) (n : nat) :
  (forall j, (j < n)%nat -> mu (a + Z.of_nat j) = mu' (a + Z.of_nat j)) ->
  Mem.read mu a n = Mem.read mu' a n.
Proof.
  intros E. unfold Mem.read. apply map_ext_in. intros j Hj.
  apply E. apply in_seq in Hj. lia.
Qed.

Lemma mem_read_write (mu : Mem.mem) (a : Z) (bs : list Z) :
  Mem.read (Mem.write mu a bs) a (length bs) = bs.
Proof.
  apply (nth_ext _ _ 0 0).
  - apply mem_length_read.
  - intros j Hj. rewrite mem_length_read in Hj. unfold Mem.read.
    rewrite (nth_indep _ 0 (Mem.write mu a bs (a + Z.of_nat 0)))
      by (rewrite length_map, length_seq; exact Hj).
    rewrite (map_nth (fun j => Mem.write mu a bs (a + Z.of_nat j))),
      seq_nth by exact Hj.
    apply mem_write_inside, Hj.
Qed.

Lemma mem_ea_aligned (off p : Z) :
  p mod 16 = 0 -> off mod 16 = 0 -> Mem.ea off p = p + off.
Proof.
  intros Hp Ho. unfold Mem.ea.
  rewrite Z.add_mod, Hp, Ho by lia. cbn. lia.
Qed.

(** The two stores of a call touch only the 32 bytes at the aligned
    address [pH]. *)
Lemma mem_compress_frame (mu : Mem.mem) (pH pt pm a : Z) :
  pH mod 16 = 0 -> a < pH \/ pH + 32 <= a ->
  Mem.blake2s_compress pH pt pm mu a = mu a.
Proof.
  intros HA Ha. unfold Mem.blake2s_compress.
  destruct (blake2s_10rounds _ _ _ _ _) as [va vb].
  unfold Mem.vec_st, Mem.vec_ld.
  rewrite !mem_ea_aligned by (assumption || reflexivity).
  rewrite !mem_write_outside; [reflexivity | |];
    unfold vec_xor; rewrite length_zip_with, mem_length_read; lia.
Qed.

Lemma wf_vec_xor (x y : vreg) :
  wf_vreg x -> wf_vreg y -> wf_vreg (vec_xor x y).
Proof.
  intros Wx Wy.
  destruct (wf_vreg_words x Wx) as (x0 & x1 & x2 & x3 & -> & _).
  destruct (wf_vreg_words y Wy) as (y0 & y1 & y2 & y3 & -> & _).
  rewrite vec_xor_bytes_of. apply wf_bytes_of.
Qed.

(** The two registers [blake2s_10rounds] hands back are well formed. *)
Lemma blake2s_10rounds_wf (va vb vc vd : vu32) (m : list Z) (va' vb' : vu32) :
  wf_state (va, vb, vc, vd) -> wf_block m ->
  blake2s_10rounds va vb vc vd m = (va', vb') ->
  wf_vreg va' /\ wf_vreg vb'.
Proof.
  intros Ws Hm. unfold blake2s_10rounds.
  destruct (blake2s_rounds_refines (va, vb, vc, vd) m Hm Ws) as [W _].
  destruct (blake2s_rounds (va, vb, vc, vd) m) as [[[xa xb] xc] xd].
  destruct W as (Wa & Wb & Wc & Wd).
  intros [= <- <-]. split; apply wf_vec_xor; assumption.
Qed.

Lemma bytes_of_words_of_app (x y : vreg) :
  wf_vreg x -> wf_vreg y -> bytes_of (words_of (x ++ y)) = x ++ y.
Proof.
  intros Wx Wy.
  destruct (wf_vreg_words x Wx) as (x0 & x1 & x2 & x3 & -> & Hx).
  destruct (wf_vreg_words y Wy) as (y0 & y1 & y2 & y3 & -> & Hy).
  unfold bytes_of at 2 3. rewrite <- flat_map_app.
  fold (bytes_of ([x0; x1; x2; x3] ++ [y0; y1; y2; y3])).
  rewrite words_of_bytes_of; [reflexivity |].
  apply Forall_app. split; assumption.
Qed.

Lemma vec_st_app (x y b : list Z) :
  length x = 16%nat -> length y = 16%nat -> length b = 32%nat ->
  vec_st y 16 (vec_st x 0 b) = x ++ y.
Proof.
  intros Lx Ly Lb. explode x Lx. explode y Ly. explode b Lb. reflexivity.
Qed.

Lemma mem_read_write2 (mu : Mem.mem) (a : Z) (x y : list Z) :
  length x = 16%nat -> length y = 16%nat ->
  Mem.read (Mem.write (Mem.write mu a x) (a + 16) y) a 32 = x ++ y.
Proof.
  intros Lx Ly.
  rewrite (mem_read_app _ a 16 16 : Mem.read _ a 32 = _). f_equal.
  - transitivity (Mem.read (Mem.write mu a x) a 16).
    + apply mem_read_ext. intros j Hj.
      apply (mem_write_outside (Mem.write mu a x) (a + 16) y). lia.
    + rewrite <- Lx. apply mem_read_write.
  - change (Z.of_nat 16) with 16. rewrite <- Ly. apply mem_read_write.
Qed.

Lemma mem_firstn_read (mu : Mem.mem) (a : Z) (k n : nat) :
  (k <= n)%nat -> firstn k (Mem.read mu a n) = Mem.read mu a k.
Proof.
  intros Hk. replace n with (k + (n - k))%nat by lia.
  rewrite mem_read_app, firstn_app, mem_length_read, Nat.sub_diag.
  cbn [firstn]. rewrite app_nil_r. apply firstn_all2.
  rewrite mem_length_read. lia.
Qed.

Lemma mem_skipn_read (mu : Mem.mem) (a : Z) (k n : nat) :
  (k <= n)%nat ->
  skipn k (Mem.read mu a n) = Mem.read mu (a + Z.of_nat k) (n - k).
Proof.
  intros Hk. replace n with (k + (n - k))%nat at 1 by lia.
  rewrite mem_read_app, skipn_app, mem_length_read, Nat.sub_diag.
  cbn [skipn]. rewrite skipn_all2 by (rewrite mem_length_read; lia).
  reflexivity.
Qed.

(** Under the layout and alignment the code relies on, the call on memory
    is the call on the context. *)
Lemma mem_compress_aligned (mu : Mem.mem) (pH pt pm : Z) (ctx : blake2s_ctx) :
  wf_ctx ctx -> wf_block (Mem.read mu pm 64) ->
  pH mod 16 = 0 -> pt mod 16 = 0 ->
  Mem.read mu pH 32 = bytes_of (ctx_H ctx) ->
  Mem.read mu pt 8 = bytes_of (ctx_t ctx) ->
  Mem.read mu (pt + 8) 8 = bytes_of (ctx_f ctx) ->
  Mem.vec_ld 0 pt mu = bytes_of (ctx_t ctx ++ ctx_f ctx) /\
  Mem.read (Mem.blake2s_compress pH pt pm mu) pH 32 =
  bytes_of (ctx_H (blake2s_compress ctx (Mem.read mu pm 64))).
Proof.
  intros Hc Hm AH At RH Rt Rf.
  assert (Lt : Mem.vec_ld 0 pt mu = bytes_of (ctx_t ctx ++ ctx_f ctx)).
  { unfold Mem.vec_ld. rewrite mem_ea_aligned by (assumption || reflexivity).
    rewrite Z.add_0_r.
    rewrite (mem_read_app _ pt 8 8 : Mem.read _ pt 16 = _), Rt.
    change (Z.of_nat 8) with 8. rewrite Rf.
    unfold bytes_of. rewrite flat_map_app. reflexivity. }
  split; [exact Lt |].
  assert (Lt' : Mem.vec_ld 0 pt mu =
               vec_ld 0 (bytes_of (ctx_t ctx ++ ctx_f ctx))).
  { rewrite Lt. unfold vec_ld. cbn [Z.to_nat skipn]. symmetry.
    apply firstn_all2. rewrite length_bytes_of, length_app.
    destruct Hc as (_ & (-> & _) & (-> & _)). apply Nat.le_refl. }
  assert (L0 : Mem.vec_ld 0 pH mu = vec_ld 0 (bytes_of (ctx_H ctx))).
  { unfold Mem.vec_ld, vec_ld.
    rewrite mem_ea_aligned by (assumption || reflexivity).
    rewrite Z.add_0_r, <- RH. cbn [Z.to_nat skipn].
    rewrite mem_firstn_read by lia. reflexivity. }
  assert (L1 : Mem.vec_ld 16 pH mu = vec_ld 16 (bytes_of (ctx_H ctx))).
  { unfold Mem.vec_ld, vec_ld.
    rewrite mem_ea_aligned by (assumption || reflexivity).
    rewrite <- RH. change (Z.to_nat 16) with 16%nat.
    rewrite mem_skipn_read by lia. rewrite mem_firstn_read by lia.
    reflexivity. }
  assert (LH : length (bytes_of (ctx_H ctx)) = 32%nat).
  { rewrite length_bytes_of. destruct Hc as ((-> & _) & _). reflexivity. }
  destruct (blake2s_load_init ctx Hc) as [Ws _].
  unfold blake2s_load in Ws. cbv zeta in Ws.
  unfold Mem.blake2s_compress, blake2s_compress, blake2s_load.
  cbv beta iota zeta. rewrite L0, L1, Lt'.
  destruct (blake2s_10rounds _ _ _ _ _) as [va' vb'] eqn:Er.
  destruct (blake2s_10rounds_wf _ _ _ _ _ _ _ Ws Hm Er) as [Wa' Wb'].
  destruct Ws as (W0 & W1 & _ & _).
  pose proof (wf_vec_xor _ _ W0 Wa') as WX.
  pose proof (wf_vec_xor _ _ W1 Wb') as WY.
  cbn [ctx_H]. unfold Mem.vec_st.
  rewrite !mem_ea_aligned by (assumption || reflexivity).
  rewrite Z.add_0_r.
  rewrite mem_read_write2 by (apply WX || apply WY).
  rewrite vec_st_app by (apply WX || apply WY || exact LH).
  rewrite bytes_of_words_of_app by assumption. reflexivity.
Qed.

(** ** Facts used by several statements *)

Lemma remove_one_perm (x : nat) (l l' : list nat) :
  remove_one x l = Some l' -> Permutation l (x :: l').
Proof.
  revert l'. induction l as [| y l IH]; intros l' E; [discriminate |].
  cbn [remove_one] in E. destruct (Nat.eqb_spec x y) as [-> | N].
  - injection E as <-. apply Permutation_refl.
  - destruct (remove_one x l) as [l0 |]; [| discriminate].
    injection E as <-. rewrite perm_swap. apply perm_skip, IH. reflexivity.
Qed.

Lemma is_perm_sound (l1 l2 : list nat) :
  is_perm l1 l2 = true -> Permutation l1 l2.
Proof.
  revert l2. induction l1 as [| x l1 IH]; intros l2 E.
  - destruct l2; [apply perm_nil | discriminate].
  - cbn [is_perm] in E.
    destruct (remove_one x l2) as [l2' |] eqn:R; [| discriminate].
    apply remove_one_perm in R. rewrite R. apply perm_skip, IH, E.
Qed.

(** The table of the source is the schedule of the reference. *)
Lemma vsigma_SIGMA : blake2s_vsigma = map (map Z.of_nat) Ref.SIGMA.
Proof. reflexivity. Qed.

Lemma vsigma_nth (r i : nat) :
  (r < 10)%nat -> (i < 16)%nat -> vsigma r i = nth i (nth r Ref.SIGMA []) 0%nat.
Proof.
  intros Hr Hi. unfold vsigma.
  do 10 (destruct r as [| r]; [
    do 16 (destruct i as [| i]; [reflexivity |]); lia |]).
  lia.
Qed.

Lemma vsigma_row (r : nat) :
  (r < 10)%nat ->
  map Z.to_nat (nth r blake2s_vsigma []) = nth r Ref.SIGMA [].
Proof.
  intros Hr. do 10 (destruct r as [| r]; [reflexivity |]). lia.
Qed.

(** Right rotation moves bit [i + n] to bit [i]. *)
Lemma rotr32_testbit (x n i : Z) :
  is_u32 x -> 0 < n < 32 -> 0 <= i < 32 ->
  Z.testbit (Ref.rotr32 x n) i = Z.testbit x ((i + n) mod 32).
Proof.
  intros Hx Hn Hi. unfold Ref.rotr32.
  rewrite Z.mod_pow2_bits_low by lia.
  rewrite Z.lxor_spec, Z.shiftr_spec, Z.shiftl_spec by lia.
  destruct (Z.lt_ge_cases (i + n) 32) as [L | L].
  - rewrite (Z.testbit_neg_r x (i - (32 - n))) by lia.
    rewrite Z.mod_small by lia. apply xorb_false_r.
  - rewrite (u32_testbit_high x (i + n)) by (assumption || lia).
    replace ((i + n) mod 32) with (i - (32 - n)).
    + apply xorb_false_l.
    + apply Z.mod_unique with (q := 1); lia.
Qed.

Lemma surjective_pairing_quad (q : Ref.quad) :
  q = (Ref.qa q, Ref.qb q, Ref.qc q, Ref.qd q).
Proof. destruct q as [[[a b] c] d]. reflexivity. Qed.

Lemma list_eqb_neq (l1 l2 : list Z) : list_eqb l1 l2 = false -> l1 <> l2.
Proof.
  revert l2. induction l1 as [| x l1 IH]; intros [| y l2] E; try discriminate.
  cbn [list_eqb] in E. intros [= -> ->].
  rewrite Z.eqb_refl in E. cbn [andb] in E. exact (IH l2 E eq_refl).
Qed.

Lemma abc_ctx_wf : wf_ctx abc_ctx.
Proof.
  unfold wf_ctx, abc_ctx. cbn [ctx_H ctx_t ctx_f].
  repeat split; try reflexivity;
    repeat (apply Forall_cons; [unfold is_u32; lia |]); apply Forall_nil.
Qed.

Lemma abc_block_wf : wf_block abc_block.
Proof.
  split; [reflexivity |]. unfold abc_block. cbn [repeat app].
  repeat (apply Forall_cons; [unfold is_u8; lia |]). apply Forall_nil.
Qed.

Lemma abc_state_wf : wf_state (blake2s_load abc_ctx).
Proof. apply blake2s_load_init, abc_ctx_wf. Qed.

(** * The compression function against its specification *)

(** C1.  For every context and every 64-byte block, [blake2s_compress]
    computes the scalar pipeline: the loader builds the working state, the
    round function (G on the four columns, then on the four diagonals, one
    word quadruple at a time) is applied ten times in sequence, and the
    finalizer folds the result into the chaining value.  The vector code and
    the scalar loop give the same context. *)
Theorem blake2s_compress_scalar_pipeline (ctx : blake2s_ctx) (m : list Z) :
  wf_ctx ctx -> wf_block m ->
  blake2s_compress ctx m =
  mk_ctx
    (Ref.finalize (ctx_H ctx)
       (fold_left
          (fun v r => Ref.round (Ref.msg_words m) (nth r Ref.SIGMA []) v)
          (seq 0 10)
          (Ref.init (ctx_H ctx) (ctx_t ctx) (ctx_f ctx))))
    (ctx_t ctx) (ctx_f ctx).
Proof.
  intros Hc Hm. rewrite blake2s_compress_ref by assumption.
  unfold Ref.compress, Ref.rounds. reflexivity.
Qed.

Lemma blake2s_compress_scalar_pipeline_witness :
  wf_ctx abc_ctx /\ wf_block abc_block /\
  blake2s_compress abc_ctx abc_block =
  mk_ctx
    (Ref.finalize (ctx_H abc_ctx)
       (fold_left
          (fun v r => Ref.round (Ref.msg_words abc_block)
                                (nth r Ref.SIGMA []) v)
          (seq 0 10)
          (Ref.init (ctx_H abc_ctx) (ctx_t abc_ctx) (ctx_f abc_ctx))))
    (ctx_t abc_ctx) (ctx_f abc_ctx).
Proof.
  split; [exact abc_ctx_wf |]. split; [exact abc_block_wf |].
  apply (blake2s_compress_scalar_pipeline abc_ctx abc_block).
  - exact abc_ctx_wf.
  - exact abc_block_wf.
Defined.

(** C2, as the code has it.  RFC 7693 publishes one chaining value of the
    BLAKE2s compression function, in appendix B: the value after compressing
    the block "abc" with [h] the initialization vector xor the parameter
    word, counter (3, 0) and flags (0xFFFFFFFF, 0).  [blake2s_compress]
    produces exactly that value on that input. *)
Theorem blake2s_compress_rfc7693_abc :
  blake2s_compress abc_ctx abc_block = mk_ctx abc_h [3; 0] [0xFFFFFFFF; 0].
Proof. vm_compute. reflexivity. Qed.

(** C2, as stated, fails: with counter (0, 0) and flags (0, 0) the block of
    the RFC does not give the published chaining value, whether the chaining
    value fed in is all zero, the initialization vector, or the
    initialization vector with the parameter word. *)
Lemma blake2s_compress_zero_counter_not_rfc7693 :
  ctx_H (blake2s_compress (mk_ctx (repeat 0 8) [0; 0] [0; 0]) abc_block)
    <> abc_h /\
  ctx_H (blake2s_compress (mk_ctx Ref.IV [0; 0] [0; 0]) abc_block)
    <> abc_h /\
  ctx_H (blake2s_compress (mk_ctx (ctx_H abc_ctx) [0; 0] [0; 0]) abc_block)
    <> abc_h.
Proof.
  repeat split; apply list_eqb_neq; vm_compute; reflexivity.
Qed.

(** C3.  For every 64-byte block: slice vector [j] holds at position [i]
    byte [3 - j] of message word [i] (the byte order within each word is
    reversed while slicing), and after the permutation and reassembly of
    round [r], lane [k] of [m1], [m2] holds the little-endian words
    [m[sigma[r][2k]]], [m[sigma[r][2k+1]]] (columns) and lane [k] of [m3],
    [m4] holds [m[sigma[r][8+2k]]], [m[sigma[r][9+2k]]] (diagonals). *)
Theorem message_schedule_little_endian (msg : list Z) (r k : nat) :
  wf_block msg -> (r < 10)%nat -> (k < 4)%nat ->
  (forall j i, (j < 4)%nat -> (i < 16)%nat ->
     nth i (nth j (load_mv msg) []) 0 = nth (4 * i + (3 - j)) msg 0) /\
  (let '(m1, m2, m3, m4) := message_schedule r (load_mv msg) in
   nth k (words_of m1) 0 = Ref.msg_word msg (vsigma r (2 * k)) /\
   nth k (words_of m2) 0 = Ref.msg_word msg (vsigma r (2 * k + 1)) /\
   nth k (words_of m3) 0 = Ref.msg_word msg (vsigma r (8 + 2 * k)) /\
   nth k (words_of m4) 0 = Ref.msg_word msg (vsigma r (9 + 2 * k))).
Proof.
  intros Hm Hr Hk. split.
  - intros j i Hj Hi. unfold load_mv. rewrite byteslice_bytes.
    do 4 (destruct j as [| j]; [
      do 16 (destruct i as [| i]; [reflexivity |]); lia |]).
    lia.
  - pose proof (message_schedule_words msg r Hm Hr) as E.
    cbv zeta in E. rewrite E. clear E.
    assert (HM : forall i, is_u32 (Ref.msg_word msg i))
      by (intros i; apply msg_word_range, Hm).
    rewrite !words_of_bytes_of
      by (repeat (apply Forall_cons; [apply HM |]); apply Forall_nil).
    rewrite !vsigma_nth by lia.
    do 4 (destruct k as [| k]; [repeat split |]). lia.
Qed.

Lemma message_schedule_little_endian_witness :
  wf_block abc_block /\ (1 < 10)%nat /\ (2 < 4)%nat /\
  (forall j i, (j < 4)%nat -> (i < 16)%nat ->
     nth i (nth j (load_mv abc_block) []) 0 =
     nth (4 * i + (3 - j)) abc_block 0) /\
  (let '(m1, m2, m3, m4) := message_schedule 1 (load_mv abc_block) in
   nth 2 (words_of m1) 0 = Ref.msg_word abc_block (vsigma 1 (2 * 2)) /\
   nth 2 (words_of m2) 0 = Ref.msg_word abc_block (vsigma 1 (2 * 2 + 1)) /\
   nth 2 (words_of m3) 0 = Ref.msg_word abc_block (vsigma 1 (8 + 2 * 2)) /\
   nth 2 (words_of m4) 0 = Ref.msg_word abc_block (vsigma 1 (9 + 2 * 2))).
Proof.
  split; [exact abc_block_wf |]. split; [lia |]. split; [lia |].
  apply (message_schedule_little_endian abc_block 1 2).
  - exact abc_block_wf.
  - lia.
  - lia.
Defined.

(** C4.  The table [blake2s_vsigma] is the sigma schedule of RFC 7693 entry
    for entry; row [r] is a permutation of 0..15; in round [r] lane [k] of
    the registers given to G on the columns holds the message words at
    positions [2k] and [2k+1] of the row, and lane [k] of those given to G
    on the diagonals the words at positions [8+2k] and [9+2k]; the round is
    the round of the reference, which reads the row in the same way. *)
Theorem blake2s_vsigma_rfc_schedule (msg : list Z) (r : nat) (s : vstate) :
  wf_block msg -> (r < 10)%nat -> wf_state s ->
  blake2s_vsigma = map (map Z.of_nat) Ref.SIGMA /\
  Permutation (map Z.to_nat (nth r blake2s_vsigma [])) (seq 0 16) /\
  (let m := fun i => Ref.msg_word msg (vsigma r i) in
   FULLROUND r (load_mv msg) s =
   mix_round
     (bytes_of (map (fun k => m (2 * k)%nat) [0; 1; 2; 3]%nat),
      bytes_of (map (fun k => m (2 * k + 1)%nat) [0; 1; 2; 3]%nat),
      bytes_of (map (fun k => m (8 + 2 * k)%nat) [0; 1; 2; 3]%nat),
      bytes_of (map (fun k => m (9 + 2 * k)%nat) [0; 1; 2; 3]%nat))
     s) /\
  state_words (FULLROUND r (load_mv msg) s) =
  Ref.round (Ref.msg_words msg) (map Z.to_nat (nth r blake2s_vsigma []))
            (state_words s).
Proof.
  intros Hm Hr Hs. split; [exact vsigma_SIGMA |]. split; [| split].
  - apply is_perm_sound.
    do 10 (destruct r as [| r]; [reflexivity |]). lia.
  - cbv zeta. unfold FULLROUND.
    pose proof (message_schedule_words msg r Hm Hr) as E.
    cbv zeta in E. rewrite E. clear E.
    cbn [map Nat.mul Nat.add]. rewrite !vsigma_nth by lia. reflexivity.
  - rewrite vsigma_row by exact Hr. apply FULLROUND_refines; assumption.
Qed.

Lemma blake2s_vsigma_rfc_schedule_witness :
  wf_block abc_block /\ (9 < 10)%nat /\ wf_state (blake2s_load abc_ctx) /\
  blake2s_vsigma = map (map Z.of_nat) Ref.SIGMA /\
  Permutation (map Z.to_nat (nth 9 blake2s_vsigma [])) (seq 0 16) /\
  (let m := fun i => Ref.msg_word abc_block (vsigma 9 i) in
   FULLROUND 9 (load_mv abc_block) (blake2s_load abc_ctx) =
   mix_round
     (bytes_of (map (fun k => m (2 * k)%nat) [0; 1; 2; 3]%nat),
      bytes_of (map (fun k => m (2 * k + 1)%nat) [0; 1; 2; 3]%nat),
      bytes_of (map (fun k => m (8 + 2 * k)%nat) [0; 1; 2; 3]%nat),
      bytes_of (map (fun k => m (9 + 2 * k)%nat) [0; 1; 2; 3]%nat))
     (blake2s_load abc_ctx)) /\
  state_words (FULLROUND 9 (load_mv abc_block) (blake2s_load abc_ctx)) =
  Ref.round (Ref.msg_words abc_block)
            (map Z.to_nat (nth 9 blake2s_vsigma []))
            (state_words (blake2s_load abc_ctx)).
Proof.
  split; [exact abc_block_wf |]. split; [lia |].
  split; [exact abc_state_wf |].
  apply (blake2s_vsigma_rfc_schedule abc_block 9 (blake2s_load abc_ctx)).
  - exact abc_block_wf.
  - lia.
  - exact abc_state_wf.
Defined.

(** C5.  On each lane [k], [BLAKE2S_VG] performs the eight steps of G:
    [a = a + b + M; d = ror(d ^ a, 16); c = c + d; b = ror(b ^ c, 12);
     a = a + b + N; d = ror(d ^ a, 8); c = c + d; b = ror(b ^ c, 7)]
    with additions modulo 2^32.  The rotation registers hold 16, 20, 24, 25,
    and rotating a 32-bit word left by these amounts is rotating it right by
    16, 12, 8, 7: bit [i] of the result is bit [(i + n) mod 32] of the
    operand. *)
Theorem BLAKE2S_VG_eight_steps (M N a b c d : vu32) (k : nat) (x : Z) :
  wf_vreg M -> wf_vreg N ->
  wf_vreg a -> wf_vreg b -> wf_vreg c -> wf_vreg d ->
  (k < 4)%nat -> is_u32 x ->
  (let lane := fun v : vu32 => nth k (words_of v) 0 in
   let '(a', b', c', d') := BLAKE2S_VG M N (a, b, c, d) in
   (lane a', lane b', lane c', lane d') =
   Ref.G (lane a) (lane b) (lane c) (lane d) (lane M) (lane N)) /\
  (words_of vr1 = [16; 16; 16; 16] /\ words_of vr2 = [20; 20; 20; 20] /\
   words_of vr3 = [24; 24; 24; 24] /\ words_of vr4 = [25; 25; 25; 25]) /\
  (rotl32 x 16 = Ref.rotr32 x 16 /\ rotl32 x 20 = Ref.rotr32 x 12 /\
   rotl32 x 24 = Ref.rotr32 x 8 /\ rotl32 x 25 = Ref.rotr32 x 7) /\
  (forall n i, 0 < n < 32 -> 0 <= i < 32 ->
     Z.testbit (Ref.rotr32 x n) i = Z.testbit x ((i + n) mod 32)).
Proof.
  intros WM WN Wa Wb Wc Wd Hk Hx. split; [| split; [| split]].
  - destruct (wf_vreg_words M WM) as (M0 & M1 & M2 & M3 & -> & HM).
    destruct (wf_vreg_words N WN) as (N0 & N1 & N2 & N3 & -> & HN).
    destruct (wf_vreg_words a Wa) as (a0 & a1 & a2 & a3 & -> & Ha).
    destruct (wf_vreg_words b Wb) as (b0 & b1 & b2 & b3 & -> & Hb).
    destruct (wf_vreg_words c Wc) as (c0 & c1 & c2 & c3 & -> & Hc).
    destruct (wf_vreg_words d Wd) as (d0 & d1 & d2 & d3 & -> & Hd).
    cbv zeta. rewrite BLAKE2S_VG_lanes by assumption. cbv zeta.
    rewrite (words_of_bytes_of _ HM), (words_of_bytes_of _ HN),
      (words_of_bytes_of _ Ha), (words_of_bytes_of _ Hb),
      (words_of_bytes_of _ Hc), (words_of_bytes_of _ Hd).
    split_Forall. rewrite !G_code_ref by assumption.
    rewrite !words_of_bytes_of
      by (repeat (apply Forall_cons; [quad_range |]); apply Forall_nil).
    do 4 (destruct k as [| k];
          [cbn [nth]; symmetry; apply surjective_pairing_quad |]).
    lia.
  - repeat split.
  - repeat split;
      [apply rotl32_16 | apply rotl32_20 | apply rotl32_24 | apply rotl32_25];
      exact Hx.
  - intros n i Hn Hi. apply rotr32_testbit; assumption.
Qed.

Lemma BLAKE2S_VG_eight_steps_witness :
  let M := mk_vu32 0x00636261 0 0 0 in
  let N := mk_vu32 1 2 3 0xFFFFFFFF in
  let a := mk_vu32 0x6B08E647 0xBB67AE85 0x3C6EF372 0xA54FF53A in
  let b := mk_vu32 0x510E527F 0x9B05688C 0x1F83D9AB 0x5BE0CD19 in
  let c := mk_vu32 0x6A09E667 0xBB67AE85 0x3C6EF372 0xA54FF53A in
  let d := mk_vu32 0x510E527C 0x9B05688C 0xE07C2654 0x5BE0CD19 in
  let x := 0x80000001 in
  (wf_vreg M /\ wf_vreg N /\ wf_vreg a /\ wf_vreg b /\ wf_vreg c /\
   wf_vreg d /\ (1 < 4)%nat /\ is_u32 x) /\
  (let lane := fun v : vu32 => nth 1 (words_of v) 0 in
   let '(a', b', c', d') := BLAKE2S_VG M N (a, b, c, d) in
   (lane a', lane b', lane c', lane d') =
   Ref.G (lane a) (lane b) (lane c) (lane d) (lane M) (lane N)) /\
  (words_of vr1 = [16; 16; 16; 16] /\ words_of vr2 = [20; 20; 20; 20] /\
   words_of vr3 = [24; 24; 24; 24] /\ words_of vr4 = [25; 25; 25; 25]) /\
  (rotl32 x 16 = Ref.rotr32 x 16 /\ rotl32 x 20 = Ref.rotr32 x 12 /\
   rotl32 x 24 = Ref.rotr32 x 8 /\ rotl32 x 25 = Ref.rotr32 x 7) /\
  (forall n i, 0 < n < 32 -> 0 <= i < 32 ->
     Z.testbit (Ref.rotr32 x n) i = Z.testbit x ((i + n) mod 32)).
Proof.
  intros M N a b c d x.
  assert (Hx : is_u32 x) by (unfold is_u32, x; lia).
  split.
  - repeat split; try apply wf_bytes_of; try lia; apply Hx.
  - apply (BLAKE2S_VG_eight_steps M N a b c d 1 x);
      try apply wf_bytes_of; [lia | exact Hx].
Defined.

(** C6.  The loader fills the working state with [v[0..8) = H],
    [v[8..12) = IV[0..4)] and [v[12..16) = IV[4..8) xor (t0, t1, f0, f1)];
    the constants of [blake2s_viv] are the initialization vector, and the
    state is a function of [H], [t] and [f] alone. *)
Theorem blake2s_load_working_state (ctx : blake2s_ctx) :
  wf_ctx ctx ->
  state_words (blake2s_load ctx) =
  ctx_H ctx ++
  [0x6A09E667; 0xBB67AE85; 0x3C6EF372; 0xA54FF53A] ++
  [Z.lxor 0x510E527F (nth 0 (ctx_t ctx) 0);
   Z.lxor 0x9B05688C (nth 1 (ctx_t ctx) 0);
   Z.lxor 0x1F83D9AB (nth 0 (ctx_f ctx) 0);
   Z.lxor 0x5BE0CD19 (nth 1 (ctx_f ctx) 0)] /\
  state_words (blake2s_load ctx) =
  ctx_H ctx ++ firstn 4 Ref.IV ++
  zip_with Z.lxor (skipn 4 Ref.IV) (ctx_t ctx ++ ctx_f ctx) /\
  words_of (nth 0 blake2s_viv []) ++ words_of (nth 1 blake2s_viv []) = Ref.IV.
Proof.
  intros Hc. destruct (blake2s_load_init ctx Hc) as [_ E].
  destruct (wf_ctx_inv ctx Hc)
    as (h0 & h1 & h2 & h3 & h4 & h5 & h6 & h7 & t0 & t1 & f0 & f1
        & -> & HH & Htf).
  rewrite E. repeat split.
Qed.

Lemma blake2s_load_working_state_witness :
  wf_ctx abc_ctx /\
  state_words (blake2s_load abc_ctx) =
  ctx_H abc_ctx ++
  [0x6A09E667; 0xBB67AE85; 0x3C6EF372; 0xA54FF53A] ++
  [Z.lxor 0x510E527F (nth 0 (ctx_t abc_ctx) 0);
   Z.lxor 0x9B05688C (nth 1 (ctx_t abc_ctx) 0);
   Z.lxor 0x1F83D9AB (nth 0 (ctx_f abc_ctx) 0);
   Z.lxor 0x5BE0CD19 (nth 1 (ctx_f abc_ctx) 0)] /\
  state_words (blake2s_load abc_ctx) =
  ctx_H abc_ctx ++ firstn 4 Ref.IV ++
  zip_with Z.lxor (skipn 4 Ref.IV) (ctx_t abc_ctx ++ ctx_f abc_ctx) /\
  words_of (nth 0 blake2s_viv []) ++ words_of (nth 1 blake2s_viv []) = Ref.IV.
Proof.
  split; [exact abc_ctx_wf |].
  apply (blake2s_load_working_state abc_ctx). exact abc_ctx_wf.
Defined.

(** C7.  With [v] the working state after the ten rounds, the call leaves
    [H[i] xor v[i] xor v[i+8]] in word [i] of the chaining value, for
    [i = 0 .. 7]; the new context is made of these eight words and the old
    counter and flags, so the working state reaches nothing else. *)
Theorem blake2s_compress_finalizer (ctx : blake2s_ctx) (m : list Z) (i : nat) :
  wf_ctx ctx -> wf_block m -> (i < 8)%nat ->
  let v := state_words (blake2s_rounds (blake2s_load ctx) m) in
  length v = 16%nat /\
  nth i (ctx_H (blake2s_compress ctx m)) 0 =
  Z.lxor (Z.lxor (nth i (ctx_H ctx) 0) (nth i v 0)) (nth (i + 8) v 0) /\
  blake2s_compress ctx m =
  mk_ctx
    (map (fun j => Z.lxor (Z.lxor (nth j (ctx_H ctx) 0) (nth j v 0))
                          (nth (j + 8) v 0))
         (seq 0 8))
    (ctx_t ctx) (ctx_f ctx).
Proof.
  intros Hc Hm Hi v.
  assert (Lv : length v = 16%nat).
  { subst v. destruct (blake2s_load_init ctx Hc) as [Ws _].
    destruct (blake2s_rounds_refines (blake2s_load ctx) m Hm Ws) as [W _].
    destruct (blake2s_rounds _ m) as [[[va vb] vc] vd].
    destruct W as (Wa & Wb & Wc & Wd).
    destruct (wf_vreg_words va Wa) as (a0 & a1 & a2 & a3 & -> & Ha).
    destruct (wf_vreg_words vb Wb) as (b0 & b1 & b2 & b3 & -> & Hb).
    destruct (wf_vreg_words vc Wc) as (c0 & c1 & c2 & c3 & -> & Hc').
    destruct (wf_vreg_words vd Wd) as (d0 & d1 & d2 & d3 & -> & Hd).
    unfold state_words. rewrite !words_of_bytes_of by assumption.
    reflexivity. }
  rewrite (blake2s_compress_finalize ctx m Hc Hm). fold v.
  clearbody v. unfold Ref.finalize. cbn [ctx_H].
  split; [exact Lv |]. split; [| reflexivity].
  do 8 (destruct i as [| i]; [reflexivity |]). lia.
Qed.

Lemma blake2s_compress_finalizer_witness :
  wf_ctx abc_ctx /\ wf_block abc_block /\ (5 < 8)%nat /\
  let v := state_words (blake2s_rounds (blake2s_load abc_ctx) abc_block) in
  length v = 16%nat /\
  nth 5 (ctx_H (blake2s_compress abc_ctx abc_block)) 0 =
  Z.lxor (Z.lxor (nth 5 (ctx_H abc_ctx) 0) (nth 5 v 0)) (nth (5 + 8) v 0) /\
  blake2s_compress abc_ctx abc_block =
  mk_ctx
    (map (fun j => Z.lxor (Z.lxor (nth j (ctx_H abc_ctx) 0) (nth j v 0))
                          (nth (j + 8) v 0))
         (seq 0 8))
    (ctx_t abc_ctx) (ctx_f abc_ctx).
Proof.
  split; [exact abc_ctx_wf |]. split; [exact abc_block_wf |].
  split; [lia |].
  apply (blake2s_compress_finalizer abc_ctx abc_block 5).
  - exact abc_ctx_wf.
  - exact abc_block_wf.
  - lia.
Defined.

(** C8.  A call changes nothing but the chaining value.  On the context,
    the counter and flag words of the result are those of the argument.  On
    memory, with [ctx->H] aligned, every region that does not meet the 32
    bytes of [ctx->H] reads the same after the call as before: so do the
    16 bytes of [t] and [f] and the 64 bytes of the block. *)
Theorem blake2s_compress_frame
  (ctx : blake2s_ctx) (m : list Z)
  (mu : Mem.mem) (pH pt pm p : Z) (n : nat) :
  pH mod 16 = 0 -> p + Z.of_nat n <= pH \/ pH + 32 <= p ->
  ctx_t (blake2s_compress ctx m) = ctx_t ctx /\
  ctx_f (blake2s_compress ctx m) = ctx_f ctx /\
  Mem.read (Mem.blake2s_compress pH pt pm mu) p n = Mem.read mu p n.
Proof.
  intros HA Hp. split; [| split].
  - unfold blake2s_compress.
    destruct (blake2s_load ctx) as [[[va vb] vc] vd].
    destruct (blake2s_10rounds va vb vc vd m) as [va' vb']. reflexivity.
  - unfold blake2s_compress.
    destruct (blake2s_load ctx) as [[[va vb] vc] vd].
    destruct (blake2s_10rounds va vb vc vd m) as [va' vb']. reflexivity.
  - apply mem_read_ext. intros j Hj. apply mem_compress_frame; [exact HA |].
    lia.
Qed.

Lemma blake2s_compress_frame_witness :
  0 mod 16 = 0 /\ (49 + Z.of_nat 64 <= 0 \/ 0 + 32 <= 49) /\
  ctx_t (blake2s_compress abc_ctx abc_block) = ctx_t abc_ctx /\
  ctx_f (blake2s_compress abc_ctx abc_block) = ctx_f abc_ctx /\
  Mem.read (Mem.blake2s_compress 0 32 49 abc_mem) 49 64 =
  Mem.read abc_mem 49 64.
Proof.
  split; [reflexivity |]. split; [right; lia |].
  apply (blake2s_compress_frame abc_ctx abc_block abc_mem 0 32 49 49 64).
  - reflexivity.
  - right. lia.
Defined.

(** C10.  The call reads [t[0], t[1], f[0], f[1]] with one aligned 16-byte
    load at [&ctx->t[0]].  When [ctx->H] and [ctx->t] are 16-byte aligned
    and [f] follows [t], the call on memory leaves at [ctx->H] the chaining
    value that [blake2s_compress] computes, wherever the block is: its
    address is not constrained.  Each of the three conditions is needed:
    with [f] away from [t], with [ctx->H] at address 8, or with [ctx->t] at
    address 40, the call on the test vector leaves another value. *)
Theorem blake2s_compress_memory_contract
  (mu : Mem.mem) (pH pt pf pm : Z) (ctx : blake2s_ctx) (m : list Z) :
  wf_ctx ctx -> wf_block m -> Mem.holds mu pH pt pf pm ctx m ->
  pH mod 16 = 0 -> pt mod 16 = 0 -> pf = pt + 8 ->
  (Mem.vec_ld 0 pt mu = bytes_of (ctx_t ctx ++ ctx_f ctx) /\
   Mem.read (Mem.blake2s_compress pH pt pm mu) pH 32 =
   bytes_of (ctx_H (blake2s_compress ctx m))) /\
  (Mem.holds abc_mem_gap 0 32 48 64 abc_ctx abc_block /\
   Mem.read (Mem.blake2s_compress 0 32 64 abc_mem_gap) 0 32 <>
   bytes_of (ctx_H (blake2s_compress abc_ctx abc_block))) /\
  (Mem.holds abc_mem_H8 8 48 56 64 abc_ctx abc_block /\
   Mem.read (Mem.blake2s_compress 8 48 64 abc_mem_H8) 8 32 <>
   bytes_of (ctx_H (blake2s_compress abc_ctx abc_block))) /\
  (Mem.holds abc_mem_t8 0 40 48 64 abc_ctx abc_block /\
   Mem.read (Mem.blake2s_compress 0 40 64 abc_mem_t8) 0 32 <>
   bytes_of (ctx_H (blake2s_compress abc_ctx abc_block))).
Proof.
  intros Hc Hm (RH & Rt & Rf & Rm) AH At ->. split; [| split; [| split]].
  - subst m. apply mem_compress_aligned; assumption.
  - split; [repeat split; vm_compute; reflexivity |].
    apply list_eqb_neq. vm_compute. reflexivity.
  - split; [repeat split; vm_compute; reflexivity |].
    apply list_eqb_neq. vm_compute. reflexivity.
  - split; [repeat split; vm_compute; reflexivity |].
    apply list_eqb_neq. vm_compute. reflexivity.
Qed.

Lemma abc_mem_holds : Mem.holds abc_mem 0 32 40 49 abc_ctx abc_block.
Proof. repeat split; vm_compute; reflexivity. Qed.

Lemma blake2s_compress_memory_contract_witness :
  (wf_ctx abc_ctx /\ wf_block abc_block /\
   Mem.holds abc_mem 0 32 40 49 abc_ctx abc_block /\
   0 mod 16 = 0 /\ 32 mod 16 = 0 /\ 40 = 32 + 8) /\
  49 mod 16 <> 0 /\
  Mem.read (Mem.blake2s_compress 0 32 49 abc_mem) 0 32 =
  bytes_of (ctx_H (blake2s_compress abc_ctx abc_block)).
Proof.
  split; [| split].
  - split; [exact abc_ctx_wf |]. split; [exact abc_block_wf |].
    split; [exact abc_mem_holds |]. repeat split.
  - discriminate.
  - apply (blake2s_compress_memory_contract
             abc_mem 0 32 40 49 abc_ctx abc_block).
    + exact abc_ctx_wf.
    + exact abc_block_wf.
    + exact abc_mem_holds.
    + reflexivity.
    + reflexivity.
    + reflexivity.
Defined.

(** * Facts for the further properties *)

(** ** Inverting the mixing function *)

Lemma lxor_inj_r (a x y : Z) : Z.lxor x a = Z.lxor y a -> x = y.
Proof.
  intros E. rewrite (Z.lxor_comm x), (Z.lxor_comm y) in E.
  exact (lxor_inj_l a x y E).
Qed.

Lemma add_mod32_inj (x y c : Z) :
  is_u32 x -> is_u32 y ->
  (x + c) mod 2 ^ 32 = (y + c) mod 2 ^ 32 -> x = y.
Proof.
  unfold is_u32. intros Hx Hy E.
  assert (D : (x - y) mod 2 ^ 32 = 0).
  { replace (x - y) with ((x + c) - (y + c)) by ring.
    rewrite Zminus_mod, E, Z.sub_diag. reflexivity. }
  apply Z.mod_divide in D; [| lia]. destruct D as [q D].
  assert (q = 0) by nia. lia.
Qed.

Lemma rotr32_inj (x y n : Z) :
  is_u32 x -> is_u32 y -> 0 < n < 32 ->
  Ref.rotr32 x n = Ref.rotr32 y n -> x = y.
Proof.
  intros Hx Hy Hn E. apply Z.bits_inj'. intros j Hj.
  destruct (Z.lt_ge_cases j 32) as [L | L].
  - pose proof (rotr32_testbit x n ((j - n) mod 32) Hx Hn) as Tx.
    pose proof (rotr32_testbit y n ((j - n) mod 32) Hy Hn) as Ty.
    assert (R : 0 <= (j - n) mod 32 < 32) by (apply Z.mod_pos_bound; lia).
    specialize (Tx R). specialize (Ty R). rewrite E in Tx.
    replace (((j - n) mod 32 + n) mod 32) with j in Tx, Ty.
    + congruence.
    + rewrite Z.add_mod_idemp_l by lia.
      replace (j - n + n) with j by ring. symmetry. apply Z.mod_small. lia.
  - rewrite !u32_testbit_high by assumption. reflexivity.
Qed.

Lemma G_halves (a b c d M N : Z) :
  Ref.G a b c d M N = G_half 8 7 (G_half 16 12 (a, b, c, d) M) N.
Proof. reflexivity. Qed.

Lemma G_half_range (r1 r2 : Z) (q : Ref.quad) (M : Z) :
  quad_u32 (G_half r1 r2 q M).
Proof.
  destruct q as [[[a b] c] d]. unfold G_half, quad_u32. cbn.
  auto using is_u32_mod, rotr32_range.
Qed.

Lemma G_half_inj (r1 r2 : Z) (q q' : Ref.quad) (M : Z) :
  0 < r1 < 32 -> 0 < r2 < 32 -> quad_u32 q -> quad_u32 q' ->
  G_half r1 r2 q M = G_half r1 r2 q' M -> q = q'.
Proof.
  intros H1 H2.
  destruct q as [[[a b] c] d], q' as [[[a' b'] c'] d'].
  unfold quad_u32, G_half. cbn [Ref.qa Ref.qb Ref.qc Ref.qd fst snd].
  intros (Ha & Hb & Hc & Hd) (Ha' & Hb' & Hc' & Hd').
  remember ((a + b + M) mod 2 ^ 32) as a1 eqn:Da1.
  remember ((a' + b' + M) mod 2 ^ 32) as a1' eqn:Da1'.
  remember (Ref.rotr32 (Z.lxor d a1) r1) as d1 eqn:Dd1.
  remember (Ref.rotr32 (Z.lxor d' a1') r1) as d1' eqn:Dd1'.
  remember ((c + d1) mod 2 ^ 32) as c1 eqn:Dc1.
  remember ((c' + d1') mod 2 ^ 32) as c1' eqn:Dc1'.
  intros [= Ea Eb Ec Ed].
  assert (Ra1 : is_u32 a1) by (rewrite Da1; apply is_u32_mod).
  assert (Rc1 : is_u32 c1) by (rewrite Dc1; apply is_u32_mod).
  rewrite <- Ea in *. rewrite <- Ec in *. rewrite <- Ed in *.
  clear Ea Ec Ed.
  apply rotr32_inj in Eb;
    try assumption; try (apply lxor_range; assumption).
  apply lxor_inj_r in Eb. subst b'.
  rewrite Dd1 in Dd1'.
  apply rotr32_inj in Dd1';
    try assumption; try (apply lxor_range; assumption).
  apply lxor_inj_r in Dd1'. subst d'.
  rewrite Dc1 in Dc1'.
  apply add_mod32_inj in Dc1'; try assumption. subst c'.
  rewrite Da1 in Da1'.
  replace (a + b + M) with (a + (b + M)) in Da1' by ring.
  replace (a' + b + M) with (a' + (b + M)) in Da1' by ring.
  apply add_mod32_inj in Da1'; try assumption. subst a'.
  reflexivity.
Qed.

(** G is injective in the four state words. *)
Lemma G_ref_inj (a b c d a' b' c' d' M N : Z) :
  is_u32 a -> is_u32 b -> is_u32 c -> is_u32 d ->
  is_u32 a' -> is_u32 b' -> is_u32 c' -> is_u32 d' ->
  Ref.G a b c d M N = Ref.G a' b' c' d' M N ->
  (a, b, c, d) = (a', b', c', d').
Proof.
  intros Ha Hb Hc Hd Ha' Hb' Hc' Hd' E. rewrite !G_halves in E.
  apply G_half_inj in E; try lia; try apply G_half_range.
  apply G_half_inj in E; try lia; try exact E;
    unfold quad_u32; cbn [Ref.qa Ref.qb Ref.qc Ref.qd fst snd]; auto.
Qed.

Lemma quad_ext (q q' : Ref.quad) :
  Ref.qa q = Ref.qa q' -> Ref.qb q = Ref.qb q' ->
  Ref.qc q = Ref.qc q' -> Ref.qd q = Ref.qd q' -> q = q'.
Proof.
  destruct q as [[[a b] c] d], q' as [[[a' b'] c'] d'].
  cbn [Ref.qa Ref.qb Ref.qc Ref.qd fst snd]. congruence.
Qed.

(** G is injective, with results and arguments as quadruples. *)
Lemma G_quad_inj (a b c d a' b' c' d' M N : Z) (g g' : Ref.quad) :
  g = Ref.G a b c d M N -> g' = Ref.G a' b' c' d' M N ->
  Ref.qa g = Ref.qa g' -> Ref.qb g = Ref.qb g' ->
  Ref.qc g = Ref.qc g' -> Ref.qd g = Ref.qd g' ->
  is_u32 a -> is_u32 b -> is_u32 c -> is_u32 d ->
  is_u32 a' -> is_u32 b' -> is_u32 c' -> is_u32 d' ->
  a = a' /\ b = b' /\ c = c' /\ d = d'.
Proof.
  intros Dg Dg' Ea Eb Ec Ed Ha Hb Hc Hd Ha' Hb' Hc' Hd'.
  pose proof (quad_ext g g' Ea Eb Ec Ed) as E. rewrite Dg, Dg' in E.
  apply G_ref_inj in E; try assumption.
  injection E as -> -> -> ->. repeat split.
Qed.

Lemma quad_ranges_of (g : Ref.quad) (a b c d M N : Z) :
  g = Ref.G a b c d M N ->
  is_u32 (Ref.qa g) /\ is_u32 (Ref.qb g) /\
  is_u32 (Ref.qc g) /\ is_u32 (Ref.qd g).
Proof. intros ->. apply G_ref_range. Qed.

Tactic Notation "quad_inj" hyp(Dh) hyp(Dh') hyp(A) hyp(B) hyp(C) hyp(D)
    "as" simple_intropattern(pat) :=
  let R := fresh "R" in
  pose proof (G_quad_inj _ _ _ _ _ _ _ _ _ _ _ _ Dh Dh' A B C D) as R;
  do 8 (specialize (R ltac:(assumption)));
  destruct R as pat.

Lemma ref_round_inj_words (m : list Z) (s : list nat)
  (a0 a1 a2 a3 b0 b1 b2 b3 c0 c1 c2 c3 d0 d1 d2 d3
   a0' a1' a2' a3' b0' b1' b2' b3' c0' c1' c2' c3' d0' d1' d2' d3' : Z) :
  Forall is_u32 [a0; a1; a2; a3; b0; b1; b2; b3;
                 c0; c1; c2; c3; d0; d1; d2; d3] ->
  Forall is_u32 [a0'; a1'; a2'; a3'; b0'; b1'; b2'; b3';
                 c0'; c1'; c2'; c3'; d0'; d1'; d2'; d3'] ->
  Ref.round m s [a0; a1; a2; a3; b0; b1; b2; b3;
                 c0; c1; c2; c3; d0; d1; d2; d3] =
  Ref.round m s [a0'; a1'; a2'; a3'; b0'; b1'; b2'; b3';
                 c0'; c1'; c2'; c3'; d0'; d1'; d2'; d3'] ->
  [a0; a1; a2; a3; b0; b1; b2; b3; c0; c1; c2; c3; d0; d1; d2; d3] =
  [a0'; a1'; a2'; a3'; b0'; b1'; b2'; b3';
   c0'; c1'; c2'; c3'; d0'; d1'; d2'; d3'].
Proof.
  intros Hv Hv' E. split_Forall.
  rewrite !ref_round_words in E. cbv zeta in E.
  remember (Ref.G a0 b0 c0 d0 _ _) as g0 eqn:Dg0 in E.
  remember (Ref.G a1 b1 c1 d1 _ _) as g1 eqn:Dg1 in E.
  remember (Ref.G a2 b2 c2 d2 _ _) as g2 eqn:Dg2 in E.
  remember (Ref.G a3 b3 c3 d3 _ _) as g3 eqn:Dg3 in E.
  remember (Ref.G a0' b0' c0' d0' _ _) as g0' eqn:Dg0' in E.
  remember (Ref.G a1' b1' c1' d1' _ _) as g1' eqn:Dg1' in E.
  remember (Ref.G a2' b2' c2' d2' _ _) as g2' eqn:Dg2' in E.
  remember (Ref.G a3' b3' c3' d3' _ _) as g3' eqn:Dg3' in E.
  remember (Ref.G (Ref.qa g0) _ _ _ _ _) as h0 eqn:Dh0 in E.
  remember (Ref.G (Ref.qa g1) _ _ _ _ _) as h1 eqn:Dh1 in E.
  remember (Ref.G (Ref.qa g2) _ _ _ _ _) as h2 eqn:Dh2 in E.
  remember (Ref.G (Ref.qa g3) _ _ _ _ _) as h3 eqn:Dh3 in E.
  remember (Ref.G (Ref.qa g0') _ _ _ _ _) as h0' eqn:Dh0' in E.
  remember (Ref.G (Ref.qa g1') _ _ _ _ _) as h1' eqn:Dh1' in E.
  remember (Ref.G (Ref.qa g2') _ _ _ _ _) as h2' eqn:Dh2' in E.
  remember (Ref.G (Ref.qa g3') _ _ _ _ _) as h3' eqn:Dh3' in E.
  injection E as A0 A1 A2 A3 B3 B0 B1 B2 C2 C3 C0 C1 D1 D2 D3 D0.
  destruct (quad_ranges_of _ _ _ _ _ _ _ Dg0) as (? & ? & ? & ?).
  destruct (quad_ranges_of _ _ _ _ _ _ _ Dg1) as (? & ? & ? & ?).
  destruct (quad_ranges_of _ _ _ _ _ _ _ Dg2) as (? & ? & ? & ?).
  destruct (quad_ranges_of _ _ _ _ _ _ _ Dg3) as (? & ? & ? & ?).
  destruct (quad_ranges_of _ _ _ _ _ _ _ Dg0') as (? & ? & ? & ?).
  destruct (quad_ranges_of _ _ _ _ _ _ _ Dg1') as (? & ? & ? & ?).
  destruct (quad_ranges_of _ _ _ _ _ _ _ Dg2') as (? & ? & ? & ?).
  destruct (quad_ranges_of _ _ _ _ _ _ _ Dg3') as (? & ? & ? & ?).
  quad_inj Dh0 Dh0' A0 B0 C0 D0 as (Ea0 & Eb1 & Ec2 & Ed3).
  quad_inj Dh1 Dh1' A1 B1 C1 D1 as (Ea1 & Eb2 & Ec3 & Ed0).
  quad_inj Dh2 Dh2' A2 B2 C2 D2 as (Ea2 & Eb3 & Ec0 & Ed1).
  quad_inj Dh3 Dh3' A3 B3 C3 D3 as (Ea3 & Eb0 & Ec1 & Ed2).
  quad_inj Dg0 Dg0' Ea0 Eb0 Ec0 Ed0 as (-> & -> & -> & ->).
  quad_inj Dg1 Dg1' Ea1 Eb1 Ec1 Ed1 as (-> & -> & -> & ->).
  quad_inj Dg2 Dg2' Ea2 Eb2 Ec2 Ed2 as (-> & -> & -> & ->).
  quad_inj Dg3 Dg3' Ea3 Eb3 Ec3 Ed3 as (-> & -> & -> & ->).
  reflexivity.
Qed.

(** A well-formed state is given by its sixteen words. *)
Lemma wf_state_words (s : vstate) :
  wf_state s ->
  exists a0 a1 a2 a3 b0 b1 b2 b3 c0 c1 c2 c3 d0 d1 d2 d3,
    s = (bytes_of [a0; a1; a2; a3], bytes_of [b0; b1; b2; b3],
         bytes_of [c0; c1; c2; c3], bytes_of [d0; d1; d2; d3]) /\
    state_words s = [a0; a1; a2; a3; b0; b1; b2; b3;
                     c0; c1; c2; c3; d0; d1; d2; d3] /\
    Forall is_u32 [a0; a1; a2; a3; b0; b1; b2; b3;
                   c0; c1; c2; c3; d0; d1; d2; d3].
Proof.
  destruct s as [[[va vb] vc] vd]. intros (Wa & Wb & Wc & Wd).
  destruct (wf_vreg_words va Wa) as (a0 & a1 & a2 & a3 & -> & Ha).
  destruct (wf_vreg_words vb Wb) as (b0 & b1 & b2 & b3 & -> & Hb).
  destruct (wf_vreg_words vc Wc) as (c0 & c1 & c2 & c3 & -> & Hc).
  destruct (wf_vreg_words vd Wd) as (d0 & d1 & d2 & d3 & -> & Hd).
  exists a0, a1, a2, a3, b0, b1, b2, b3, c0, c1, c2, c3, d0, d1, d2, d3.
  split; [reflexivity |]. split.
  - unfold state_words. rewrite !words_of_bytes_of by assumption. reflexivity.
  - apply (proj2 (Forall_app is_u32 [_; _; _; _] _)). split; [exact Ha |].
    apply (proj2 (Forall_app is_u32 [_; _; _; _] _)). split; [exact Hb |].
    apply (proj2 (Forall_app is_u32 [_; _; _; _] _)). split; assumption.
Qed.

Lemma FULLROUND_inj (msg : list Z) (r : nat) (s s' : vstate) :
  wf_block msg -> (r < 10)%nat -> wf_state s -> wf_state s' ->
  FULLROUND r (load_mv msg) s = FULLROUND r (load_mv msg) s' -> s = s'.
Proof.
  intros Hm Hr Ws Ws' E.
  apply (f_equal state_words) in E.
  destruct (FULLROUND_refines msg r s Hm Hr Ws) as [_ E1].
  destruct (FULLROUND_refines msg r s' Hm Hr Ws') as [_ E2].
  rewrite E1, E2 in E. clear E1 E2.
  destruct (wf_state_words s Ws)
    as (a0 & a1 & a2 & a3 & b0 & b1 & b2 & b3 & c0 & c1 & c2 & c3
        & d0 & d1 & d2 & d3 & -> & Sw & Hv).
  destruct (wf_state_words s' Ws')
    as (a0' & a1' & a2' & a3' & b0' & b1' & b2' & b3' & c0' & c1' & c2'
        & c3' & d0' & d1' & d2' & d3' & -> & Sw' & Hv').
  rewrite Sw, Sw' in E. clear Sw Sw' Ws Ws'.
  apply ref_round_inj_words in E; [| assumption ..].
  injection E as -> -> -> -> -> -> -> -> -> -> -> -> -> -> -> ->.
  reflexivity.
Qed.

Lemma fold_left_inj {A : Type} (F : A -> nat -> A) (P : A -> Prop)
  (rs : list nat) :
  (forall r s, In r rs -> P s -> P (F s r)) ->
  (forall r s s', In r rs -> P s -> P s' -> F s r = F s' r -> s = s') ->
  forall s s', P s -> P s' ->
  fold_left F rs s = fold_left F rs s' -> s = s'.
Proof.
  induction rs as [| r rs IH]; intros Hp Hi s s' Ps Ps' E; [exact E |].
  cbn [fold_left] in E.
  apply (Hi r); [left; reflexivity | assumption ..|].
  apply IH; try assumption.
  - intros r0 s0 Hr0. apply Hp. right. exact Hr0.
  - intros r0 s0 s0' Hr0. apply Hi. right. exact Hr0.
  - apply Hp; [left; reflexivity | exact Ps].
  - apply Hp; [left; reflexivity | exact Ps'].
Qed.

Lemma blake2s_rounds_inj (msg : list Z) (s s' : vstate) :
  wf_block msg -> wf_state s -> wf_state s' ->
  blake2s_rounds s msg = blake2s_rounds s' msg -> s = s'.
Proof.
  intros Hm Ws Ws'. rewrite !blake2s_rounds_fold.
  apply (fold_left_inj (fun s r => FULLROUND r (load_mv msg) s) wf_state
           (seq 0 10)); try assumption.
  - intros r s0 Hr Ws0. apply in_seq in Hr.
    apply FULLROUND_refines; [assumption | lia | assumption].
  - intros r s0 s0' Hr Ws0 Ws0'. apply in_seq in Hr.
    apply FULLROUND_inj; [assumption | lia | assumption ..].
Qed.

Lemma state_words_inj (s s' : vstate) :
  wf_state s -> wf_state s' -> state_words s = state_words s' -> s = s'.
Proof.
  intros Ws Ws' E.
  destruct (wf_state_words s Ws)
    as (a0 & a1 & a2 & a3 & b0 & b1 & b2 & b3 & c0 & c1 & c2 & c3
        & d0 & d1 & d2 & d3 & -> & Sw & _).
  destruct (wf_state_words s' Ws')
    as (a0' & a1' & a2' & a3' & b0' & b1' & b2' & b3' & c0' & c1' & c2'
        & c3' & d0' & d1' & d2' & d3' & -> & Sw' & _).
  rewrite Sw, Sw' in E.
  injection E as -> -> -> -> -> -> -> -> -> -> -> -> -> -> -> ->.
  reflexivity.
Qed.

(** The loads of [blake2s_compress] keep every word of the context apart. *)
Lemma blake2s_load_inj (ctx ctx' : blake2s_ctx) :
  wf_ctx ctx -> wf_ctx ctx' ->
  blake2s_load ctx = blake2s_load ctx' -> ctx = ctx'.
Proof.
  intros Hc Hc' E. apply (f_equal state_words) in E.
  destruct (blake2s_load_init _ Hc) as [_ E1].
  destruct (blake2s_load_init _ Hc') as [_ E2].
  rewrite E1, E2 in E. clear E1 E2.
  destruct (wf_ctx_inv ctx Hc)
    as (h0 & h1 & h2 & h3 & h4 & h5 & h6 & h7 & t0 & t1 & f0 & f1
        & -> & _ & _).
  destruct (wf_ctx_inv ctx' Hc')
    as (h0' & h1' & h2' & h3' & h4' & h5' & h6' & h7' & t0' & t1' & f0'
        & f1' & -> & _ & _).
  cbn [ctx_H ctx_t ctx_f] in E. unfold Ref.init in E.
  cbn [Ref.IV skipn firstn app zip_with] in E.
  pose proof (f_equal (fun l => nth 0 l 0) E) as N0.
  pose proof (f_equal (fun l => nth 1 l 0) E) as N1.
  pose proof (f_equal (fun l => nth 2 l 0) E) as N2.
  pose proof (f_equal (fun l => nth 3 l 0) E) as N3.
  pose proof (f_equal (fun l => nth 4 l 0) E) as N4.
  pose proof (f_equal (fun l => nth 5 l 0) E) as N5.
  pose proof (f_equal (fun l => nth 6 l 0) E) as N6.
  pose proof (f_equal (fun l => nth 7 l 0) E) as N7.
  pose proof (f_equal (fun l => nth 12 l 0) E) as N12.
  pose proof (f_equal (fun l => nth 13 l 0) E) as N13.
  pose proof (f_equal (fun l => nth 14 l 0) E) as N14.
  pose proof (f_equal (fun l => nth 15 l 0) E) as N15.
  clear E. cbv beta in *.
  cbn [nth] in N0, N1, N2, N3, N4, N5, N6, N7, N12, N13, N14, N15.
  apply lxor_inj_l in N12, N13, N14, N15.
  subst. reflexivity.
Qed.

Lemma nth_u32 (l : list Z) (i : nat) : Forall is_u32 l -> is_u32 (nth i l 0).
Proof.
  intros Hl. destruct (Nat.lt_ge_cases i (length l)) as [L | L].
  - rewrite Forall_forall in Hl. apply Hl, nth_In, L.
  - rewrite nth_overflow by exact L. unfold is_u32. lia.
Qed.

(** An invariant of the steps is an invariant of the fold. *)
Lemma fold_left_invariant {A B : Type} (F : A -> B -> A)
  (P : A -> Prop) (Q : B -> Prop) (l : list B) :
  (forall a b, P a -> Q b -> P (F a b)) -> Forall Q l ->
  forall a, P a -> P (fold_left F l a).
Proof.
  intros Hstep Hl. induction Hl as [| b l Hb _ IH]; intros a Ha.
  - exact Ha.
  - cbn [fold_left]. apply IH, Hstep; assumption.
Qed.

Lemma blake2s_compress_wf_ctx (ctx : blake2s_ctx) (m : list Z) :
  wf_ctx ctx -> wf_block m -> wf_ctx (blake2s_compress ctx m).
Proof.
  intros Hc Hm. rewrite blake2s_compress_finalize by assumption.
  destruct (blake2s_load_init ctx Hc) as [Ws _].
  destruct (blake2s_rounds_refines (blake2s_load ctx) m Hm Ws) as [W _].
  destruct (wf_state_words _ W)
    as (a0 & a1 & a2 & a3 & b0 & b1 & b2 & b3 & c0 & c1 & c2 & c3
        & d0 & d1 & d2 & d3 & _ & Sw & Hv).
  rewrite Sw. clear Sw W Ws.
  destruct Hc as (HH & Ht & Hf).
  split; [| split; assumption]. cbn [ctx_H]. split.
  - unfold Ref.finalize. rewrite length_map, length_seq. reflexivity.
  - unfold Ref.finalize. apply Forall_map, Forall_forall. intros i _.
    apply lxor_range; [apply lxor_range |]; apply nth_u32;
      (exact Hv || apply HH).
Qed.

(** ** The block buffer *)

(** The loop reads the first 64 bytes of the block and nothing else. *)
Lemma byteslice_app (msg extra : list Z) :
  length msg = 64%nat -> byteslice (msg ++ extra) = byteslice msg.
Proof.
  intros Lm. rewrite !byteslice_bytes. apply map_ext_in. intros j Hj.
  apply in_seq in Hj. apply app_nth1. rewrite Lm.
  assert (j mod 16 < 16)%nat by (apply Nat.mod_upper_bound; lia).
  lia.
Qed.

Lemma blake2s_rounds_app (s : vstate) (msg extra : list Z) :
  length msg = 64%nat ->
  blake2s_rounds s (msg ++ extra) = blake2s_rounds s msg.
Proof.
  intros Lm. unfold blake2s_rounds, load_mv.
  rewrite byteslice_app by exact Lm. reflexivity.
Qed.

(** ** Pointers that are not aligned *)

Lemma mem_ea_0 (p : Z) : Mem.ea 0 p = p - p mod 16.
Proof. unfold Mem.ea. rewrite Z.add_0_r. reflexivity. Qed.

Lemma mem_ea_16 (p : Z) : Mem.ea 16 p = Mem.ea 0 p + 16.
Proof. unfold Mem.ea. Z.div_mod_to_equations. lia. Qed.

Lemma mem_ea_idem (p : Z) : Mem.ea 0 (Mem.ea 0 p) = Mem.ea 0 p.
Proof. unfold Mem.ea. Z.div_mod_to_equations. lia. Qed.

Lemma mem_compress_frame_ea (mu : Mem.mem) (pH pt pm a : Z) :
  a < Mem.ea 0 pH \/ Mem.ea 0 pH + 32 <= a ->
  Mem.blake2s_compress pH pt pm mu a = mu a.
Proof.
  intros Ha. unfold Mem.blake2s_compress.
  destruct (blake2s_10rounds _ _ _ _ _) as [va vb].
  unfold Mem.vec_st, Mem.vec_ld. rewrite !mem_ea_16.
  rewrite !mem_write_outside; [reflexivity | |];
    unfold vec_xor; rewrite length_zip_with, mem_length_read; lia.
Qed.

(** ** What a call reads *)




(** ** Rotation of a register by whole bytes *)

Lemma vec_sld_rotate (v : vreg) (n : nat) :
  length v = 16%nat -> (n <= 16)%nat ->
  vec_sld v v (Z.of_nat n) = skipn n v ++ firstn n v.
Proof.
  intros L Hn. unfold vec_sld. rewrite Nat2Z.id.
  rewrite skipn_app, L. replace (n - 16)%nat with 0%nat by lia.
  cbn [skipn]. rewrite firstn_app, length_skipn, L.
  rewrite firstn_all2 by (rewrite length_skipn; lia).
  f_equal. f_equal. lia.
Qed.

(** ** The mixing macro on well-formed registers *)

Lemma BLAKE2S_VG_inj (M N : vu32) (s s' : vstate) :
  wf_vreg M -> wf_vreg N -> wf_state s -> wf_state s' ->
  BLAKE2S_VG M N s = BLAKE2S_VG M N s' -> s = s'.
Proof.
  intros WM WN Ws Ws' E.
  destruct (wf_vreg_words M WM) as (M0 & M1 & M2 & M3 & -> & HM).
  destruct (wf_vreg_words N WN) as (N0 & N1 & N2 & N3 & -> & HN).
  destruct (wf_state_words s Ws)
    as (a0 & a1 & a2 & a3 & b0 & b1 & b2 & b3 & c0 & c1 & c2 & c3
        & d0 & d1 & d2 & d3 & -> & _ & Hv).
  destruct (wf_state_words s' Ws')
    as (a0' & a1' & a2' & a3' & b0' & b1' & b2' & b3' & c0' & c1' & c2'
        & c3' & d0' & d1' & d2' & d3' & -> & _ & Hv').
  clear Ws Ws' WM WN. split_Forall.
  rewrite !BLAKE2S_VG_lanes in E by u32_solve. cbv zeta in E.
  rewrite !G_code_ref in E by assumption.
  apply (f_equal state_words) in E. unfold state_words in E.
  rewrite !words_of_bytes_of in E
    by (repeat (apply Forall_cons; [quad_range |]); apply Forall_nil).
  cbn [app] in E.
  remember (Ref.G a0 b0 c0 d0 _ _) as g0 eqn:Dg0 in E.
  remember (Ref.G a1 b1 c1 d1 _ _) as g1 eqn:Dg1 in E.
  remember (Ref.G a2 b2 c2 d2 _ _) as g2 eqn:Dg2 in E.
  remember (Ref.G a3 b3 c3 d3 _ _) as g3 eqn:Dg3 in E.
  remember (Ref.G a0' b0' c0' d0' _ _) as g0' eqn:Dg0' in E.
  remember (Ref.G a1' b1' c1' d1' _ _) as g1' eqn:Dg1' in E.
  remember (Ref.G a2' b2' c2' d2' _ _) as g2' eqn:Dg2' in E.
  remember (Ref.G a3' b3' c3' d3' _ _) as g3' eqn:Dg3' in E.
  injection E as A0 A1 A2 A3 B0 B1 B2 B3 C0 C1 C2 C3 D0 D1 D2 D3.
  quad_inj Dg0 Dg0' A0 B0 C0 D0 as (-> & -> & -> & ->).
  quad_inj Dg1 Dg1' A1 B1 C1 D1 as (-> & -> & -> & ->).
  quad_inj Dg2 Dg2' A2 B2 C2 D2 as (-> & -> & -> & ->).
  quad_inj Dg3 Dg3' A3 B3 C3 D3 as (-> & -> & -> & ->).
  reflexivity.
Qed.

(** ** The test vector with the last-block flag clear *)

Lemma abc_ctx_open_wf : wf_ctx abc_ctx_open.
Proof.
  unfold wf_ctx, abc_ctx_open, abc_ctx. cbn [ctx_H ctx_t ctx_f].
  repeat split; try reflexivity;
    repeat (apply Forall_cons; [unfold is_u32; lia |]); apply Forall_nil.
Qed.

Lemma abc_state_open_wf : wf_state (blake2s_load abc_ctx_open).
Proof. apply blake2s_load_init, abc_ctx_open_wf. Qed.

Lemma abc_ctx_open_neq : abc_ctx <> abc_ctx_open.
Proof.
  intros E. apply (f_equal ctx_f) in E. revert E.
  apply list_eqb_neq. reflexivity.
Qed.

Lemma abc_state_open_neq : blake2s_load abc_ctx <> blake2s_load abc_ctx_open.
Proof.
  intros E. apply (f_equal state_words) in E. revert E.
  apply list_eqb_neq. vm_compute. reflexivity.
Qed.

(** * Further properties of the code *)

(** X1.  A call keeps the context well formed, so calls can be chained:
    after any sequence of 64-byte blocks the chaining value is again eight
    32-bit words, beside the counter and the flags. *)
Theorem blake2s_compress_keeps_wf_ctx
  (ctx : blake2s_ctx) (ms : list (list Z)) :
  wf_ctx ctx -> Forall wf_block ms ->
  wf_ctx (fold_left blake2s_compress ms ctx).
Proof.
  intros Hc Hms.
  apply (fold_left_invariant blake2s_compress wf_ctx wf_block);
    try assumption.
  intros c m. apply blake2s_compress_wf_ctx.
Qed.

Lemma blake2s_compress_keeps_wf_ctx_witness :
  wf_ctx abc_ctx /\ Forall wf_block [abc_block; abc_block] /\
  wf_ctx (fold_left blake2s_compress [abc_block; abc_block] abc_ctx).
Proof.
  assert (Hms : Forall wf_block [abc_block; abc_block])
    by (repeat (apply Forall_cons; [exact abc_block_wf |]); apply Forall_nil).
  split; [exact abc_ctx_wf |]. split; [exact Hms |].
  apply (blake2s_compress_keeps_wf_ctx abc_ctx [abc_block; abc_block]).
  - exact abc_ctx_wf.
  - exact Hms.
Defined.

(** X2.  For given message registers the mixing macro [BLAKE2S_VG] is
    injective on well-formed registers: two different quadruples
    [(a, b, c, d)] are mixed into different quadruples. *)
Theorem BLAKE2S_VG_injective (M N : vu32) (s s' : vstate) :
  wf_vreg M -> wf_vreg N -> wf_state s -> wf_state s' -> s <> s' ->
  BLAKE2S_VG M N s <> BLAKE2S_VG M N s'.
Proof.
  intros WM WN Ws Ws' Hne E. apply Hne.
  exact (BLAKE2S_VG_inj M N s s' WM WN Ws Ws' E).
Qed.

Lemma BLAKE2S_VG_injective_witness :
  let M := mk_vu32 0x00636261 0 0 0 in
  let N := mk_vu32 1 2 3 0xFFFFFFFF in
  (wf_vreg M /\ wf_vreg N /\ wf_state (blake2s_load abc_ctx) /\
   wf_state (blake2s_load abc_ctx_open) /\
   blake2s_load abc_ctx <> blake2s_load abc_ctx_open) /\
  BLAKE2S_VG M N (blake2s_load abc_ctx) <>
  BLAKE2S_VG M N (blake2s_load abc_ctx_open).
Proof.
  intros M N. split.
  - split; [apply wf_bytes_of |]. split; [apply wf_bytes_of |].
    split; [exact abc_state_wf |]. split; [exact abc_state_open_wf |].
    exact abc_state_open_neq.
  - apply (BLAKE2S_VG_injective M N (blake2s_load abc_ctx)
             (blake2s_load abc_ctx_open)).
    + apply wf_bytes_of.
    + apply wf_bytes_of.
    + exact abc_state_wf.
    + exact abc_state_open_wf.
    + exact abc_state_open_neq.
Defined.

(** X3.  For a given block each [FULLROUND(r)] and the ten rounds together
    are injective on well-formed working states: the rounds lose nothing of
    the state they start from. *)
Theorem blake2s_rounds_injective (msg : list Z) (r : nat) (s s' : vstate) :
  wf_block msg -> (r < 10)%nat -> wf_state s -> wf_state s' -> s <> s' ->
  FULLROUND r (load_mv msg) s <> FULLROUND r (load_mv msg) s' /\
  blake2s_rounds s msg <> blake2s_rounds s' msg.
Proof.
  intros Hm Hr Ws Ws' Hne. split; intros E; apply Hne.
  - exact (FULLROUND_inj msg r s s' Hm Hr Ws Ws' E).
  - exact (blake2s_rounds_inj msg s s' Hm Ws Ws' E).
Qed.

Lemma blake2s_rounds_injective_witness :
  (wf_block abc_block /\ (7 < 10)%nat /\ wf_state (blake2s_load abc_ctx) /\
   wf_state (blake2s_load abc_ctx_open) /\
   blake2s_load abc_ctx <> blake2s_load abc_ctx_open) /\
  FULLROUND 7 (load_mv abc_block) (blake2s_load abc_ctx) <>
  FULLROUND 7 (load_mv abc_block) (blake2s_load abc_ctx_open) /\
  blake2s_rounds (blake2s_load abc_ctx) abc_block <>
  blake2s_rounds (blake2s_load abc_ctx_open) abc_block.
Proof.
  split.
  - split; [exact abc_block_wf |]. split; [lia |].
    split; [exact abc_state_wf |]. split; [exact abc_state_open_wf |].
    exact abc_state_open_neq.
  - apply (blake2s_rounds_injective abc_block 7 (blake2s_load abc_ctx)
             (blake2s_load abc_ctx_open)).
    + exact abc_block_wf.
    + lia.
    + exact abc_state_wf.
    + exact abc_state_open_wf.
    + exact abc_state_open_neq.
Defined.

(** X4.  Two well-formed contexts that differ in any word of [H], [t] or
    [f] lead, on the same block, to different working states after the ten
    rounds: every word of the context, the flags included, reaches the
    state that the final xor folds. *)
Theorem blake2s_rounds_separate_contexts
  (ctx ctx' : blake2s_ctx) (m : list Z) :
  wf_ctx ctx -> wf_ctx ctx' -> wf_block m -> ctx <> ctx' ->
  state_words (blake2s_rounds (blake2s_load ctx) m) <>
  state_words (blake2s_rounds (blake2s_load ctx') m).
Proof.
  intros Hc Hc' Hm Hne E. apply Hne.
  destruct (blake2s_load_init ctx Hc) as [Ws _].
  destruct (blake2s_load_init ctx' Hc') as [Ws' _].
  destruct (blake2s_rounds_refines (blake2s_load ctx) m Hm Ws) as [W _].
  destruct (blake2s_rounds_refines (blake2s_load ctx') m Hm Ws') as [W' _].
  apply (state_words_inj _ _ W W') in E.
  apply (blake2s_rounds_inj m _ _ Hm Ws Ws') in E.
  exact (blake2s_load_inj ctx ctx' Hc Hc' E).
Qed.

Lemma blake2s_rounds_separate_contexts_witness :
  (wf_ctx abc_ctx /\ wf_ctx abc_ctx_open /\ wf_block abc_block /\
   abc_ctx <> abc_ctx_open) /\
  state_words (blake2s_rounds (blake2s_load abc_ctx) abc_block) <>
  state_words (blake2s_rounds (blake2s_load abc_ctx_open) abc_block).
Proof.
  split.
  - split; [exact abc_ctx_wf |]. split; [exact abc_ctx_open_wf |].
    split; [exact abc_block_wf | exact abc_ctx_open_neq].
  - apply (blake2s_rounds_separate_contexts abc_ctx abc_ctx_open abc_block).
    + exact abc_ctx_wf.
    + exact abc_ctx_open_wf.
    + exact abc_block_wf.
    + exact abc_ctx_open_neq.
Defined.

(** X5.  The block is read through its first 64 bytes only: whatever
    follows them in the buffer [msg] points to changes neither the result
    of [blake2s_10rounds] nor the context after [blake2s_compress]. *)
Theorem blake2s_compress_reads_64_bytes
  (ctx : blake2s_ctx) (va vb vc vd : vu32) (m extra : list Z) :
  length m = 64%nat ->
  blake2s_10rounds va vb vc vd (m ++ extra) = blake2s_10rounds va vb vc vd m /\
  blake2s_compress ctx (m ++ extra) = blake2s_compress ctx m.
Proof.
  intros Lm.
  assert (E : forall xa xb xc xd,
             blake2s_10rounds xa xb xc xd (m ++ extra) =
             blake2s_10rounds xa xb xc xd m).
  { intros xa xb xc xd. unfold blake2s_10rounds.
    rewrite blake2s_rounds_app by exact Lm. reflexivity. }
  split; [apply E |].
  unfold blake2s_compress.
  destruct (blake2s_load ctx) as [[[xa xb] xc] xd].
  rewrite E. reflexivity.
Qed.

Lemma blake2s_compress_reads_64_bytes_witness :
  let va := mk_vu32 1 2 3 4 in
  length abc_block = 64%nat /\
  blake2s_10rounds va va va va (abc_block ++ [7; 8; 9]) =
  blake2s_10rounds va va va va abc_block /\
  blake2s_compress abc_ctx (abc_block ++ [7; 8; 9]) =
  blake2s_compress abc_ctx abc_block.
Proof.
  intros va. split; [reflexivity |].
  apply (blake2s_compress_reads_64_bytes abc_ctx va va va va abc_block
           [7; 8; 9]).
  reflexivity.
Defined.

(** X6.  The byte-slicing loop stores to each of the 64 bytes of the
    scratch buffer [msl], which the source leaves uninitialized: whatever
    the buffer holds before the loop, it holds the sliced block after it. *)
Theorem byteslice_overwrites_buffer (msg msl : list Z) :
  length msl = 64%nat ->
  fold_left (byteslice_step msg) (seq 0 16) msl = byteslice msg.
Proof.
  intros L. explode msl L. reflexivity.
Qed.

Lemma byteslice_overwrites_buffer_witness :
  length (repeat 255 64) = 64%nat /\
  fold_left (byteslice_step abc_block) (seq 0 16) (repeat 255 64) =
  byteslice abc_block.
Proof.
  split; [reflexivity |].
  apply (byteslice_overwrites_buffer abc_block (repeat 255 64)).
  reflexivity.
Defined.

(** X7.  In every round the four message registers [m1 .. m4] hold, lane
    by lane, each of the sixteen words of the block once. *)
Theorem message_schedule_uses_each_word_once (msg : list Z) (r : nat) :
  wf_block msg -> (r < 10)%nat ->
  let '(m1, m2, m3, m4) := message_schedule r (load_mv msg) in
  Permutation (words_of m1 ++ words_of m2 ++ words_of m3 ++ words_of m4)
              (Ref.msg_words msg).
Proof.
  intros Hm Hr.
  pose proof (message_schedule_words msg r Hm Hr) as E.
  cbv zeta in E. rewrite E. clear E.
  assert (HM : forall i, is_u32 (Ref.msg_word msg i))
    by (intros i; apply msg_word_range, Hm).
  rewrite !words_of_bytes_of
    by (repeat (apply Forall_cons; [apply HM |]); apply Forall_nil).
  unfold Ref.msg_words.
  change (Permutation
    (map (Ref.msg_word msg)
       (map (fun i => nth i (nth r Ref.SIGMA []) 0%nat)
          [0; 2; 4; 6; 1; 3; 5; 7; 8; 10; 12; 14; 9; 11; 13; 15]%nat))
    (map (Ref.msg_word msg) (seq 0 16))).
  apply Permutation_map.
  do 10 (destruct r as [| r];
         [apply is_perm_sound; vm_compute; reflexivity |]).
  lia.
Qed.

Lemma message_schedule_uses_each_word_once_witness :
  wf_block abc_block /\ (3 < 10)%nat /\
  let '(m1, m2, m3, m4) := message_schedule 3 (load_mv abc_block) in
  Permutation (words_of m1 ++ words_of m2 ++ words_of m3 ++ words_of m4)
              (Ref.msg_words abc_block).
Proof.
  split; [exact abc_block_wf |]. split; [lia |].
  apply (message_schedule_uses_each_word_once abc_block 3).
  - exact abc_block_wf.
  - lia.
Defined.

(** X8.  [SELW(x, y, z, w)] takes its bytes from the four registers in
    turn: byte [i] of the result is byte [i] of [x], [y], [z] or [w] as
    [i mod 4] is 0, 1, 2 or 3. *)
Theorem SELW_takes_bytes_in_turn (x y z w : vreg) (i : nat) :
  wf_vreg x -> wf_vreg y -> wf_vreg z -> wf_vreg w -> (i < 16)%nat ->
  nth i (SELW x y z w) 0 = nth i (nth (i mod 4) [x; y; z; w] []) 0.
Proof.
  intros Wx Wy Wz Ww Hi. rewrite SELW_bytes by assumption.
  unfold byte_select.
  do 16 (destruct i as [| i]; [reflexivity |]). lia.
Qed.

Lemma SELW_takes_bytes_in_turn_witness :
  let x := mk_vu32 0x00010203 0x04050607 0x08090A0B 0x0C0D0E0F in
  let y := mk_vu32 0x10111213 0x14151617 0x18191A1B 0x1C1D1E1F in
  let z := mk_vu32 0x20212223 0x24252627 0x28292A2B 0x2C2D2E2F in
  let w := mk_vu32 0x30313233 0x34353637 0x38393A3B 0x3C3D3E3F in
  (wf_vreg x /\ wf_vreg y /\ wf_vreg z /\ wf_vreg w /\ (6 < 16)%nat) /\
  nth 6 (SELW x y z w) 0 = nth 6 (nth (6 mod 4) [x; y; z; w] []) 0.
Proof.
  intros x y z w. split.
  - split; [apply wf_bytes_of |]. split; [apply wf_bytes_of |].
    split; [apply wf_bytes_of |]. split; [apply wf_bytes_of | lia].
  - apply (SELW_takes_bytes_in_turn x y z w 6);
      [apply wf_bytes_of | apply wf_bytes_of | apply wf_bytes_of
      | apply wf_bytes_of | lia].
Defined.

(** X9.  Rotating a register by [z] bytes and then by [16 - z] bytes
    gives the register back: the shifts by 12, 8 and 4 at the end of
    [FULLROUND] undo the shifts by 4, 8 and 12 between its two halves. *)
Theorem vec_sld_round_trip (v : vreg) (z : Z) :
  length v = 16%nat -> 0 <= z <= 16 ->
  vec_sld (vec_sld v v z) (vec_sld v v z) (16 - z) = v.
Proof.
  intros L Hz.
  replace z with (Z.of_nat (Z.to_nat z)) by lia.
  replace (16 - Z.of_nat (Z.to_nat z)) with (Z.of_nat (16 - Z.to_nat z))
    by lia.
  set (n := Z.to_nat z). assert (Hn : (n <= 16)%nat) by lia.
  rewrite (vec_sld_rotate v n) by assumption.
  rewrite vec_sld_rotate
    by (rewrite ?length_app, ?length_skipn, ?length_firstn; lia).
  rewrite skipn_app, firstn_app, length_skipn, L.
  replace (16 - n - (16 - n))%nat with 0%nat by lia.
  cbn [skipn firstn]. rewrite app_nil_r.
  rewrite skipn_all2 by (rewrite length_skipn; lia).
  rewrite (firstn_all2 (skipn n v) (n := (16 - n)%nat))
    by (rewrite length_skipn; lia).
  cbn [app]. apply firstn_skipn.
Qed.

Lemma vec_sld_round_trip_witness :
  let v := mk_vu32 0x00010203 0x04050607 0x08090A0B 0x0C0D0E0F in
  length v = 16%nat /\ 0 <= 4 <= 16 /\
  vec_sld (vec_sld v v 4) (vec_sld v v 4) (16 - 4) = v.
Proof.
  intros v. split; [reflexivity |]. split; [lia |].
  apply (vec_sld_round_trip v 4); [reflexivity | lia].
Defined.

(** X10.  The loads and stores of a call ignore the low four bits of the
    pointers [ctx->H] and [&ctx->t[0]]: a call on pointers that are not
    aligned is the call on the pointers rounded down to a multiple of
    16. *)
Theorem blake2s_compress_rounds_pointers_down
  (mu : Mem.mem) (pH pt pm : Z) :
  Mem.blake2s_compress pH pt pm mu =
  Mem.blake2s_compress (pH - pH mod 16) (pt - pt mod 16) pm mu.
Proof.
  rewrite <- !mem_ea_0.
  unfold Mem.blake2s_compress, Mem.vec_ld, Mem.vec_st.
  rewrite !mem_ea_16, !mem_ea_idem. reflexivity.
Qed.

(** X11.  Whatever the alignment of [ctx->H], a call writes nothing
    outside the 32 bytes that start at [ctx->H] rounded down to a multiple
    of 16: every region that does not meet them reads the same after the
    call.  With [ctx->H] not aligned the last [pH mod 16] bytes of the
    chaining value are among the bytes left as they were. *)
Theorem blake2s_compress_writes_32_bytes
  (mu : Mem.mem) (pH pt pm p : Z) (n : nat) :
  p + Z.of_nat n <= pH - pH mod 16 \/ pH - pH mod 16 + 32 <= p ->
  Mem.read (Mem.blake2s_compress pH pt pm mu) p n = Mem.read mu p n.
Proof.
  intros Hp. apply mem_read_ext. intros j Hj.
  apply mem_compress_frame_ea. rewrite mem_ea_0. lia.
Qed.

Lemma blake2s_compress_writes_32_bytes_witness :
  (32 + Z.of_nat 8 <= 8 - 8 mod 16 \/ 8 - 8 mod 16 + 32 <= 32) /\
  Mem.read (Mem.blake2s_compress 8 48 64 abc_mem_H8) 32 8 =
  Mem.read abc_mem_H8 32 8.
Proof.
  split; [right; reflexivity |].
  apply (blake2s_compress_writes_32_bytes abc_mem_H8 8 48 64 32 8).
  right. reflexivity.
Defined.



(** X13.  Under the layout the code relies on ([ctx->H] and [ctx->t] 16-byte
    aligned, [f] behind [t]) and with the counter, the flags and the block
    outside the 32 bytes of [ctx->H], the memory after a call holds the
    context that [blake2s_compress] computes and the same block: the layout
    is kept, so the next call finds what it needs. *)
Theorem blake2s_compress_holds_after_call
  (mu : Mem.mem) (pH pt pf pm : Z) (ctx : blake2s_ctx) (m : list Z) :
  wf_ctx ctx -> wf_block m -> Mem.holds mu pH pt pf pm ctx m ->
  pH mod 16 = 0 -> pt mod 16 = 0 -> pf = pt + 8 ->
  pt + 16 <= pH \/ pH + 32 <= pt ->
  pm + 64 <= pH \/ pH + 32 <= pm ->
  Mem.holds (Mem.blake2s_compress pH pt pm mu) pH pt pf pm
            (blake2s_compress ctx m) m.
Proof.
  intros Hc Hm (RH & Rt & Rf & Rm) AH At -> Dt Dm.
  assert (Fr : forall p n, p + Z.of_nat n <= pH \/ pH + 32 <= p ->
               Mem.read (Mem.blake2s_compress pH pt pm mu) p n =
               Mem.read mu p n).
  { intros p n Hp. apply mem_read_ext. intros j Hj.
    apply mem_compress_frame; [exact AH | lia]. }
  unfold Mem.holds. split; [| split; [| split]].
  - subst m. apply mem_compress_aligned; assumption.
  - rewrite blake2s_compress_ref by assumption. cbn [ctx_t].
    rewrite Fr by lia. exact Rt.
  - rewrite blake2s_compress_ref by assumption. cbn [ctx_f].
    rewrite Fr by lia. exact Rf.
  - rewrite Fr by lia. exact Rm.
Qed.

Lemma blake2s_compress_holds_after_call_witness :
  (wf_ctx abc_ctx /\ wf_block abc_block /\
   Mem.holds abc_mem 0 32 40 49 abc_ctx abc_block /\
   0 mod 16 = 0 /\ 32 mod 16 = 0 /\ 40 = 32 + 8 /\
   (32 + 16 <= 0 \/ 0 + 32 <= 32) /\ (49 + 64 <= 0 \/ 0 + 32 <= 49)) /\
  Mem.holds (Mem.blake2s_compress 0 32 49 abc_mem) 0 32 40 49
            (blake2s_compress abc_ctx abc_block) abc_block.
Proof.
  split.
  - split; [exact abc_ctx_wf |]. split; [exact abc_block_wf |].
    split; [exact abc_mem_holds |].
    split; [reflexivity |]. split; [reflexivity |]. split; [reflexivity |].
    split; right; lia.
  - apply (blake2s_compress_holds_after_call
             abc_mem 0 32 40 49 abc_ctx abc_block).
    + exact abc_ctx_wf.
    + exact abc_block_wf.
    + exact abc_mem_holds.
    + reflexivity.
    + reflexivity.
    + reflexivity.
    + right. lia.
    + right. lia.
Defined.
